(** * defg: reconciling documentation blocks with an existing README

    A shallow embedding of the core of [defg.js]: the documentation-comment
    recogniser ([xtract_doc_comment_1]), the structural-line classifier
    ([isSplLine]), the permutation search ([gen_1]) with its lockstep
    aligner ([find_min_1]), and the final merge ([regen_readme],
    [asDiff], [saveReadme], [main]).

    JavaScript strings are modelled by [string]; a character stands for a
    code unit in the range U+0000..U+00FF.  Arrays are lists, [null] and
    [undefined] are [None]. *)

From Stdlib Require Import Bool Arith Lia List Ascii String Permutation Sorted FinFun FunInd.
Import ListNotations.

Local Open Scope string_scope.
Local Open Scope list_scope.

(* ================================================================== *)
(** ** Characters and strings *)

Definition TAB : ascii := "009"%char.
Definition LF : ascii := "010"%char.
Definition VT : ascii := "011"%char.
Definition FF : ascii := "012"%char.
Definition CR : ascii := "013"%char.
Definition SP : ascii := " "%char.
Definition NBSP : ascii := "160"%char.

(** The string ["\n"]. *)
Definition nl : string := String LF "".

(** Membership of a character in a bracket class such as [[ \t]]. *)
Definition one_of (cs : list ascii) (c : ascii) : bool :=
  existsb (Ascii.eqb c) cs.

(** JavaScript line terminators (those below U+0100). *)
Definition is_line_terminator (c : ascii) : bool := one_of [LF; CR] c.

(** White space as [String.prototype.trim] understands it (below U+0100). *)
Definition is_ws (c : ascii) : bool := one_of [TAB; LF; VT; FF; CR; SP; NBSP] c.

(** [s.trimStart()] *)
Fixpoint trimStart (s : string) : string :=
  match s with
  | "" => ""
  | String c s' => if is_ws c then trimStart s' else s
  end.

(** [s.trimEnd()] *)
Fixpoint trimEnd (s : string) : string :=
  match s with
  | "" => ""
  | String c s' =>
      match trimEnd s' with
      | "" => if is_ws c then "" else String c ""
      | t => String c t
      end
  end.

(** [s.trim()] *)
Definition trim (s : string) : string := trimEnd (trimStart s).

(** [s.split(/[\r\n]/g)]: every CR and every LF is a separator of its own;
    the result is never empty. *)
Fixpoint split_lines (s : string) : list string :=
  match s with
  | "" => [""]
  | String c s' =>
      if is_line_terminator c then "" :: split_lines s'
      else match split_lines s' with
           | l :: ls => String c l :: ls
           | [] => [String c ""]
           end
  end.

(** [ls.join(sep)] *)
Definition join (sep : string) (ls : list string) : string := String.concat sep ls.

(** [ls.join("")] *)
Fixpoint join_empty (ls : list string) : string :=
  match ls with
  | [] => ""
  | l :: ls' => l ++ join_empty ls'
  end.

(* ================================================================== *)
(** ** Regular expressions

    The four regular expressions of the program are sequences of character
    classes, each taken once, optionally ([?]) or greedily repeated ([*]),
    with optional anchors and at most one capture group.  [match_atoms] is
    a backtracking matcher for that fragment, trying alternatives in the
    order a JavaScript engine does. *)

Inductive quant : Type := Once | Opt | Star.

Record atom : Type := Atom {
  cls : ascii -> bool;   (* the character class *)
  rep : quant;           (* its quantifier *)
  cap : bool             (* inside capture group 1? *)
}.

Record regex : Type := Regex {
  bol : bool;            (* starts with ^ *)
  atoms : list atom;
  eol : bool             (* ends with $ *)
}.

Definition grab (a : atom) (c : ascii) (r : option string) : option string :=
  if cap a then option_map (String c) r else r.

Definition or_else {A} (x y : option A) : option A :=
  match x with Some _ => x | None => y end.

(** One character of the class of [a], then [rest]. *)
Definition eat (a : atom) (rest : string -> option string) (s : string)
  : option string :=
  match s with
  | String c s' => if cls a c then grab a c (rest s') else None
  | "" => None
  end.

(** [a*] followed by [k], greedy: one more character of the class is tried
    before the continuation is. *)
Fixpoint star (a : atom) (k : string -> option string) (s : string)
  : option string :=
  or_else
    (match s with
     | String c s' => if cls a c then grab a c (star a k s') else None
     | "" => None
     end)
    (k s).

(** Match the atoms at the start of the string; the result is the text of
    capture group 1 (empty when the expression has no group). *)
Fixpoint match_atoms (dollar : bool) (p : list atom) : string -> option string :=
  match p with
  | [] => fun s =>
      if dollar then match s with "" => Some "" | _ => None end else Some ""
  | a :: p' =>
      let k := match_atoms dollar p' in
      match rep a with
      | Once => eat a k
      | Opt => fun s => or_else (eat a k s) (k s)
      | Star => star a k
      end
  end.

(** Without [^] the engine retries at each later position. *)
Fixpoint search (dollar : bool) (p : list atom) (s : string) : option string :=
  match match_atoms dollar p s with
  | Some g => Some g
  | None => match s with
            | "" => None
            | String _ s' => search dollar p s'
            end
  end.

(** [s.match(r)]: [None] is [null], [Some g] a match whose group 1 is [g]. *)
Definition re_match (r : regex) (s : string) : option string :=
  if bol r then match_atoms (eol r) (atoms r) s else search (eol r) (atoms r) s.

Definition truthy {A} (x : option A) : bool :=
  match x with Some _ => true | None => false end.

Definition chr (c : ascii) : atom := Atom (Ascii.eqb c) Once false.
Definition any_of (cs : list ascii) (q : quant) : atom := Atom (one_of cs) q false.
Definition dot (c : ascii) : bool := negb (is_line_terminator c).

(** [/^[ \t]*[!]\[.*\]\([^)]*\)[ \t\n]*$/] *)
Definition re_image : regex :=
  Regex true
    [ any_of [SP; TAB] Star; any_of ["!"%char] Once; chr "["; Atom dot Star false;
      chr "]"; chr "("; Atom (fun c => negb (one_of [")"%char] c)) Star false;
      chr ")"; any_of [SP; TAB; LF] Star ]
    true.

(** [/^[ \t]*<.*>[ \t\n]*$/] *)
Definition re_tag : regex :=
  Regex true
    [ any_of [SP; TAB] Star; chr "<"; Atom dot Star false; chr ">";
      any_of [SP; TAB; LF] Star ]
    true.

(** [isSplLine(l)], as a truth value. *)
Definition isSplLine (l : string) : bool :=
  truthy (re_match re_image l) || truthy (re_match re_tag l).

(** [/[/#][/#]\*\* ?$/] *)
Definition re_marker_only : regex :=
  Regex false
    [ any_of ["/"%char; "#"%char] Once; any_of ["/"%char; "#"%char] Once;
      chr "*"; chr "*"; Atom (Ascii.eqb SP) Opt false ]
    true.

(** The expression [/[/#][/#]\*\* (.* )/], written here with a blank
    before the closing parenthesis of its group [(.* )]. *)
Definition re_marker_text : regex :=
  Regex false
    [ any_of ["/"%char; "#"%char] Once; any_of ["/"%char; "#"%char] Once;
      chr "*"; chr "*"; chr SP; Atom dot Star true ]
    false.

(** [xtract_doc_comment_1(l)]: the documentation payload of a source line,
    or [None] ([null]) for a line that is not a documentation line. *)
Definition xtract_doc_comment_1 (l : string) : option string :=
  match re_match re_marker_only l with
  | Some _ => Some ""
  | None =>
      match re_match re_marker_text l with
      | Some g => Some g
      | None => None
      end
  end.

(** [xtract_1]: the lines of one source file are added to [docblocks].
    [active] is either [null] or an alias of the last block pushed; the
    flag below says which, and [active.push(doc)] extends that last block. *)
Definition push_active (docblocks : list (list string)) (doc : string)
  : list (list string) :=
  match rev docblocks with
  | last :: before => rev before ++ [last ++ [doc]]
  | [] => [[doc]]
  end.

Definition xtract_line (acc : list (list string) * bool) (l : string)
  : list (list string) * bool :=
  let (docblocks, active) := acc in
  match xtract_doc_comment_1 l with
  | None => (docblocks, false)
  | Some doc =>
      if active then (push_active docblocks doc, true)
      else (docblocks ++ [[doc]], true)
  end.

Definition xtract_1 (data : string) (docblocks : list (list string))
  : list (list string) :=
  fst (fold_left xtract_line (split_lines data) (docblocks, false)).

(* ================================================================== *)
(** ** The lockstep aligner, [find_min_1] *)

(** The local variables of one run of [find_min_1]. *)
Record walk_state : Type := Walk {
  data : list string;
  nd : nat;
  nr : nat;
  dist : nat
}.

(** How one run ends: the loop is left normally, the early [return] is
    taken, or the model's fuel is used up (which does not happen, see
    [walk_terminates]). *)
Inductive outcome : Type :=
| Finished (d : nat) (merged : list string)
| Aborted
| OutOfFuel.

(** [x === y] where [x] may be [undefined]. *)
Definition strict_eq (x : option string) (y : string) : bool :=
  match x with
  | Some v => String.eqb v y
  | None => false
  end.

(** [!l] for a string [l]. *)
Definition falsy (l : string) : bool :=
  match l with "" => true | _ => false end.

(** [a.splice(i, 0, x)] *)
Definition splice (i : nat) (x : string) (a : list string) : list string :=
  firstn i a ++ x :: skipn i a.

Definition maxLookAhead : nat := 7.

(** What the [for] loop of the mismatch branch finds. *)
Inductive hit : Type :=
| HitRef (i : nat)    (* [lr_ === ld]: [ld] shows up [i] lines further in the README *)
| HitData (i : nat)   (* [ld_ === lr]: [lr] shows up [i] lines further in the data *)
| Miss.               (* the loop ran to [i == maxLookAhead] *)

Section Aligner.

Variable rlines : list string.

(** The [for] loop, from index [i] with [k = maxLookAhead - i] rounds left. *)
Fixpoint lookahead (s : walk_state) (ld lr : string) (k i : nat) : hit :=
  match k with
  | 0 => Miss
  | S k' =>
      if strict_eq (nth_error rlines (nr s + i)) ld then HitRef i
      else if strict_eq (nth_error (data s) (nd s + i)) lr then HitData i
      else lookahead s ld lr k' (S i)
  end.

(** The mismatch branch up to and including [nd++; nr++]. *)
Definition mismatch (s : walk_state) : walk_state :=
  let ld := nth (nd s) (data s) "" in
  let lr := nth (nr s) rlines "" in
  match lookahead s ld lr (maxLookAhead - 1) 1 with
  | HitRef i => Walk (data s) (nd s + 1) (nr s + i + 1) (dist s + i)
  | HitData i => Walk (data s) (nd s + i + 1) (nr s + 1) (dist s + i)
  | Miss => Walk (data s) (nd s + 1) (nr s + 1) (dist s + 2)
  end.

(** [min.dist != null && dist > min.dist] *)
Definition exceeds (best : option nat) (d : nat) : bool :=
  match best with
  | Some b => (b <? d)%nat
  | None => false
  end.

(** The [while] loop; [best] is [min.dist] as the run finds it. *)
Function walk (best : option nat) (fuel : nat) (s : walk_state) {struct fuel} : outcome :=
  if ((nd s <? List.length (data s)) && (nr s <? List.length rlines))%nat then
    match fuel with
    | 0 => OutOfFuel
    | S fuel' =>
        let ld := nth (nd s) (data s) "" in
        let lr := nth (nr s) rlines "" in
        if (ld =? lr)%string then
          walk best fuel' (Walk (data s) (nd s + 1) (nr s + 1) (dist s))
        else if falsy ld || isSplLine ld then
          walk best fuel' (Walk (data s) (nd s + 1) (nr s) (dist s))
        else if falsy lr || isSplLine lr then
          walk best fuel' (Walk (splice (nd s) lr (data s)) (nd s + 1) (nr s + 1) (dist s))
        else
          let s' := mismatch s in
          if exceeds best (dist s') then Aborted
          else walk best fuel' s'
    end
  else Finished (dist s) (data s).

(** The object [min] together with the list [dists]. *)
Record search_state : Type := Search {
  min_dist : option nat;
  min_data : option (list string);
  dists : list nat
}.

(** Every round of the loop moves a cursor forward, and an insertion moves
    [nd] along with the length of [data]: this many rounds are enough. *)
Definition walk_fuel (flat : list string) : nat := List.length flat + List.length rlines.

(** [find_min_1()], for the blocks currently in [perm]. *)
Definition find_min_1 (perm : list (list string)) (m : search_state) : search_state :=
  let flat := List.concat perm in
  match walk (min_dist m) (walk_fuel flat) (Walk flat 0 0 0) with
  | Finished d merged => Search (Some d) (Some merged) (dists m ++ [d])
  | Aborted => m
  | OutOfFuel => m
  end.

End Aligner.

(* ================================================================== *)
(** ** The permutation generator, [gen_1] *)

(** [chosen] is a JavaScript array that starts empty: a hole reads as
    [undefined] (falsy) and a write past the end extends the array. *)
Definition chosen_get (chosen : list bool) (i : nat) : bool := nth i chosen false.

Fixpoint chosen_set (chosen : list bool) (i : nat) (v : bool) : list bool :=
  match i, chosen with
  | 0, [] => [v]
  | 0, _ :: t => v :: t
  | S i', [] => false :: chosen_set [] i' v
  | S i', h :: t => h :: chosen_set t i' v
  end.

Section Generator.

Variable State : Type.
Variable docblocks : list (list string).
Variable cb : list (list string) -> State -> State.

(** [gen_1(cb)].  [perm.push]/[perm.pop] and [chosen[i] = true]/[= false]
    bracket the recursive call, so the callee works on the extended copies
    and the caller goes on with its own.  The recursion is as deep as
    [docblocks.length - perm.length]; [fuel] stands for that depth. *)
Fixpoint gen_1 (fuel : nat) (chosen : list bool) (perm : list (list string))
  (st : State) : State :=
  if (List.length perm =? List.length docblocks)%nat then cb perm st
  else
    match fuel with
    | 0 => st
    | S fuel' =>
        fold_left
          (fun st i =>
             if chosen_get chosen i then st
             else gen_1 fuel' (chosen_set chosen i true)
                    (perm ++ [nth i docblocks []]) st)
          (seq 0 (List.length docblocks)) st
    end.

End Generator.

(* ================================================================== *)
(** ** Diff entries, [asDiff], [saveReadme], [regen_readme], [main] *)

(** A change object: the flags are read for their truthiness only. *)
Record part : Type := Part {
  fresh : bool;
  added : bool;
  removed : bool;
  value : string
}.

(** [asDiff(docblocks)] *)
Definition asDiff (docblocks : list (list string)) : list part :=
  fold_left
    (fun diff block =>
       diff ++ map (fun value => Part true false false (value ++ nl)) block)
    docblocks [].

(** The four ways [saveReadme] treats a part. *)
Inductive kind : Type := Fresh | Removed | Added | Unchanged.

Definition classify (p : part) : kind :=
  if fresh p then Fresh
  else if removed p then Removed
  else if added p then Added
  else Unchanged.

(** [saveReadme(ctx, diff)]: the text written to the README.  (The console
    report and the PDF are left out.) *)
Definition saveReadme (diff : list part) : string :=
  let o :=
    fold_left
      (fun o part =>
         if fresh part then o ++ [value part]
         else if removed part then o
         else if added part then o ++ [value part]
         else o ++ [value part])
      diff [] in
  trim (join_empty o).

(** [readsafely(f)], given the content of the file if there is one. *)
Definition readsafely (file : option string) : option string :=
  option_map trim file.

Section Pipeline.

(** [Diff.diffLines(old, new, { ignoreWhitespace: false, newlineIsToken: false })]
    of the [diff] package, which is not part of this program. *)
Variable diffLines : string -> string -> list part.

(** The search of [regen_readme]: [min] and [dists] after [gen_1(find_min_1)]. *)
Definition regen_search (readme : string) (docblocks : list (list string))
  : search_state :=
  let rlines := split_lines readme in
  gen_1 search_state docblocks (find_min_1 rlines)
        (List.length docblocks) [] [] (Search None None []).

(** The constant [data] of [regen_readme]; [None] is the TypeError of
    [min.data.join] when [min.data] is still [null]. *)
Definition regen_data (readme : string) (docblocks : list (list string))
  : option string :=
  match min_data (regen_search readme docblocks) with
  | Some merged => Some (trim (join nl merged))
  | None => None
  end.

(** [regen_readme(ctx, readme, docblocks)]: the text written to the README. *)
Definition regen_readme (readme : string) (docblocks : list (list string))
  : option string :=
  match regen_data readme docblocks with
  | Some data => Some (saveReadme (diffLines readme data))
  | None => None
  end.

(** [main()] from the point where the README has been read and the blocks
    extracted: [file] is the content of the README file if it exists, and
    the result is the text written to it ([None]: nothing is written). *)
Definition main (file : option string) (docblocks : list (list string))
  : option string :=
  let readme := readsafely file in
  match docblocks with
  | [] => None
  | _ =>
      match readme with
      | None => Some (saveReadme (asDiff docblocks))
      | Some r => regen_readme r docblocks
      end
  end.

End Pipeline.

(* ================================================================== *)
(** ** The source tree: [xtractUserDocz], [x_1], [is_ok_1] *)

(** What [readdirSync(p, { withFileTypes: true })] lists: a directory with
    its own listing, a regular file with its content, or something that is
    neither (a link, a socket). *)
#[local] Set Warnings "-register-all".

Inductive dirent : Type :=
| Directory (name : string) (entries : list dirent)
| RegularFile (name : string) (content : string)
| OtherEntry (name : string).

(** [s.endsWith(suffix)]: [s] is [suffix], or what follows its first
    character ends with [suffix]. *)
Fixpoint endsWith (s suffix : string) : bool :=
  (s =? suffix)%string
  || match s with
     | "" => false
     | String _ s' => endsWith s' suffix
     end.

(** [is_ok_1(n)], as a truth value. *)
Definition is_ok_1 (n : string) : bool :=
  if falsy n then false
  else if (n =? "node_modules")%string then false
  else if prefix "." n then false
  else if (n =? "dist")%string then false
  else if (n =? "tmp")%string || (n =? "_tmp")%string then false
  else true.

(** The callback of [ntries.map] in [x_1], for one entry: the blocks of
    the files read are pushed on [docblocks]. *)
Fixpoint x_entry (exts : list string) (ntry : dirent)
  (docblocks : list (list string)) {struct ntry} : list (list string) :=
  match ntry with
  | Directory name entries =>
      if is_ok_1 name
      then fold_left (fun docblocks ntry => x_entry exts ntry docblocks)
                     entries docblocks
      else docblocks
  | RegularFile name content =>
      if falsy name then docblocks
      else if existsb (fun ext => endsWith name ext) exts
           then xtract_1 content docblocks
           else docblocks
  | OtherEntry _ => docblocks
  end.

(** [x_1(p)], given the listing of [p]. *)
Definition x_1 (exts : list string) (ntries : list dirent)
  (docblocks : list (list string)) : list (list string) :=
  fold_left (fun docblocks ntry => x_entry exts ntry docblocks) ntries docblocks.

(** [ctx.src] is a file or a directory. *)
Inductive source : Type :=
| SrcFile (content : string)
| SrcDir (entries : list dirent).

(** [xtractUserDocz(ctx)]; [None] is [undefined]. *)
Definition xtractUserDocz (exts : list string) (src : source)
  : option (list (list string)) :=
  let docblocks :=
    match src with
    | SrcFile content => xtract_1 content []
    | SrcDir entries => x_1 exts entries []
    end in
  match docblocks with
  | [] => None
  | _ => Some docblocks
  end.

(* ================================================================== *)
(** ** Page options: [readpageoptions], [openPDF] *)

(** [/^[ \t]/] *)
Definition re_indented : regex := Regex true [ any_of [SP; TAB] Once ] false.

(** The text [readpageoptions] hands to [matter], if it gets that far. *)
Definition page_options_text (file : option string) : option string :=
  match readsafely file with
  | None => None
  | Some page_options =>
      if falsy page_options then None
      else
        let page_options :=
          if negb (truthy (re_match re_indented page_options))
          then join nl (map (fun l => ("  " ++ l)%string) (split_lines page_options))
          else page_options in
        Some ("---" ++ nl ++ page_options ++ nl ++ "---" ++ nl ++ "  ")%string
  end.

(** What a call of [readpageoptions] comes to: it returns [undefined], it
    returns [front.data], or the exception of [matter] passes through it. *)
Inductive page_options_result (PageOptions : Type) : Type :=
| ReturnsUndefined
| ReturnsData (data : PageOptions)
| MatterThrows.

Arguments ReturnsUndefined {PageOptions}.
Arguments ReturnsData {PageOptions} data.
Arguments MatterThrows {PageOptions}.

(** How [openPDF] goes as far as its call of [mdToPdf]: the README is
    missing, the exception of [matter] passes through, the assignment to
    [options.pdf_options.displayHeaderFooter] raises a TypeError, or
    [mdToPdf] is called. *)
Inductive pdf_step (PageOptions : Type) : Type :=
| ReadmeNotFound
| ParseError
| TypeError
| Converts (dest : string) (stylesheet : option string) (pdf_options : PageOptions).

Arguments ReadmeNotFound {PageOptions}.
Arguments ParseError {PageOptions}.
Arguments TypeError {PageOptions}.
Arguments Converts {PageOptions} dest stylesheet pdf_options.

Section PageOptions.

(** The [gray-matter] package, which is not part of this program:
    [PageOptions] are the values [front.data] can take ([null] among
    them), [matter_data text] is [matter(text).data], or [None] when
    [matter] throws (a text that is not YAML), [truthy_data] is the truth
    value of such a value, and [set_displayHeaderFooter] is the assignment
    [o.displayHeaderFooter = true] on a truthy one (the program does not
    run in strict mode: the assignment does not throw). *)
Variable PageOptions : Type.
Variable matter_data : string -> option PageOptions.
Variable truthy_data : PageOptions -> bool.
Variable set_displayHeaderFooter : PageOptions -> PageOptions.

(** [readpageoptions(ctx)] *)
Definition readpageoptions (file : option string)
  : page_options_result PageOptions :=
  match page_options_text file with
  | None => ReturnsUndefined
  | Some page_options =>
      match matter_data page_options with
      | None => MatterThrows
      | Some data => ReturnsData data
      end
  end.

(** [options.stylesheet] after [if(ctx.style) options.stylesheet = ctx.style]. *)
Definition stylesheet_of (style : option string) : option string :=
  match style with
  | Some s => if falsy s then None else Some s
  | None => None
  end.

(** [openPDF(ctx)] up to [mdToPdf]: [readme_exists] is
    [fs.existsSync(ctx.readme)], [page_file] the content of the page
    options file if there is one. *)
Definition openPDF (readme_exists : bool) (pdf : string) (style : option string)
  (page_file : option string) : pdf_step PageOptions :=
  if negb readme_exists then ReadmeNotFound
  else
    match readpageoptions page_file with
    | MatterThrows => ParseError
    | ReturnsUndefined => TypeError
    | ReturnsData page_options =>
        if truthy_data page_options
        then Converts pdf (stylesheet_of style)
                      (set_displayHeaderFooter page_options)
        else TypeError
    end.

End PageOptions.

(* ================================================================== *)
(** ** Notions used to state the properties *)

(** [l1] can be read off [l2] from left to right, skipping elements. *)
Fixpoint subseq (l1 l2 : list string) : Prop :=
  match l1, l2 with
  | [], _ => True
  | _ :: _, [] => False
  | x :: l1', y :: l2' => (x = y /\ subseq l1' l2') \/ subseq l1 l2'
  end.

Fixpoint subseqb (l1 l2 : list string) : bool :=
  match l1, l2 with
  | [], _ => true
  | _ :: _, [] => false
  | x :: l1', y :: l2' => ((x =? y)%string && subseqb l1' l2') || subseqb l1 l2'
  end.

(** The alignment of one candidate when nothing is known to beat: the run
    of [find_min_1] with [min.dist] still [null]. *)
Definition align (rlines flat : list string) : outcome :=
  walk rlines None (walk_fuel rlines flat) (Walk flat 0 0 0).

(** The true alignment distance of an ordering, and its merged sequence. *)
Definition distance (rlines : list string) (perm : list (list string)) : nat :=
  match align rlines (List.concat perm) with
  | Finished d _ => d
  | _ => 0
  end.

Definition merged_lines (rlines : list string) (perm : list (list string))
  : list string :=
  match align rlines (List.concat perm) with
  | Finished _ m => m
  | _ => []
  end.

(** The orderings [gen_1] hands to its callback, in that order: those of a
    call with the given [chosen] and [perm], and those of the whole search. *)
Definition enumerate (docblocks : list (list string)) (fuel : nat)
  (chosen : list bool) (perm : list (list string)) : list (list (list string)) :=
  gen_1 _ docblocks (fun perm acc => acc ++ [perm]) fuel chosen perm [].

Definition orderings (docblocks : list (list string)) : list (list (list string)) :=
  enumerate docblocks (List.length docblocks) [] [].

(** The orderings below round [i] of the [for] loop of [gen_1]. *)
Definition branch (docblocks : list (list string)) (fuel : nat)
  (chosen : list bool) (perm : list (list string)) (i : nat)
  : list (list (list string)) :=
  if chosen_get chosen i then []
  else enumerate docblocks fuel (chosen_set chosen i true)
         (perm ++ [nth i docblocks []]).

(** The orderings of the indices [rem], the next index being taken from
    [rem] from left to right: for increasing [rem], the lexicographic
    order.  [fuel] bounds the length of [rem]. *)
Fixpoint index_orderings (fuel : nat) (rem : list nat) : list (list nat) :=
  match fuel, rem with
  | _, [] => [[]]
  | 0, _ :: _ => []
  | S fuel', _ :: _ =>
      flat_map
        (fun i => map (cons i) (index_orderings fuel' (remove Nat.eq_dec i rem)))
        rem
  end.

(** The indices below [n] not marked in [chosen], in increasing order. *)
Definition unchosen (n : nat) (chosen : list bool) : list nat :=
  filter (fun i => negb (chosen_get chosen i)) (seq 0 n).

(** [chosen] marks exactly the indices in [sigma]. *)
Definition marks (chosen : list bool) (sigma : list nat) : Prop :=
  forall i, chosen_get chosen i = true <-> In i sigma.

(** [docblocks[i]] for each index of [sigma]. *)
Definition blocks_at (docblocks : list (list string)) (sigma : list nat)
  : list (list string) :=
  map (fun i => nth i docblocks []) sigma.

(** Scoring a list of candidates one after the other, as [gen_1(find_min_1)]
    does with [orderings]. *)
Definition score_all (rlines : list string) (cands : list (list (list string)))
  : search_state :=
  fold_left (fun m perm => find_min_1 rlines perm m) cands (Search None None []).

(** A line that is neither empty nor structural. *)
Definition ordinary (l : string) : bool := negb (falsy l || isSplLine l).

(** The parts [saveReadme] keeps. *)
Definition kept (p : part) : bool :=
  match classify p with
  | Removed => false
  | _ => true
  end.

(** What the program relies on from [Diff.diffLines] when lines are compared
    exactly: the parts that are not removed spell the new text, those that
    are not added the old one, no part carries the [fresh] flag, and a text
    compared with itself has neither added nor removed parts. *)
Record lawful_diff (diffLines : string -> string -> list part) : Prop := {
  diff_new : forall a b,
    join_empty (map value (filter (fun p => negb (removed p)) (diffLines a b))) = b;
  diff_old : forall a b,
    join_empty (map value (filter (fun p => negb (added p)) (diffLines a b))) = a;
  diff_not_fresh : forall a b,
    Forall (fun p => fresh p = false) (diffLines a b);
  diff_same : forall a,
    Forall (fun p => added p = false /\ removed p = false) (diffLines a a)
}.

(** The coarsest lawful diff: one unchanged part, or the old text removed
    and the new one added. *)
Definition whole_diff (a b : string) : list part :=
  if (a =? b)%string then [Part false false false a]
  else [Part false false true a; Part false true false b].

(** A diff that reports the new text only, as one added part. *)
Definition added_diff (a b : string) : list part :=
  [Part false true false b].

(** [unlines ls] is [ls.join("\n")], for writing texts down. *)
Definition unlines (ls : list string) : string := join nl ls.

(** In the mismatch branch: [ld] shows up [j] lines further in the README,
    resp. [lr] shows up [j] lines further in the data. *)
Definition ref_hit (rlines : list string) (s : walk_state) (ld : string) (j : nat)
  : bool :=
  strict_eq (nth_error rlines (nr s + j)) ld.

Definition data_hit (s : walk_state) (lr : string) (j : nat) : bool :=
  strict_eq (nth_error (data s) (nd s + j)) lr.

(** No offset from [i] up to, not including, [j] has a hit on either side. *)
Definition no_hit_before (rlines : list string) (s : walk_state) (ld lr : string)
  (i j : nat) : Prop :=
  forall j', i <= j' < j ->
             ref_hit rlines s ld j' = false /\ data_hit s lr j' = false.

(** The number of rounds the loop of [find_min_1] can still make. *)
Definition slack (rlines : list string) (s : walk_state) : nat :=
  (List.length (data s) - nd s) + (List.length rlines - nr s).

(** The text has no carriage return: its lines are separated by ["\n"] only. *)
Fixpoint no_cr (s : string) : bool :=
  match s with
  | "" => true
  | String c s' => negb (Ascii.eqb c CR) && no_cr s'
  end.

(** Every character of the string is in the class. *)
Fixpoint all_chars (f : ascii -> bool) (s : string) : bool :=
  match s with
  | "" => true
  | String c s' => f c && all_chars f s'
  end.

(** The strings a sequence of atoms matches from their first character on
    (up to the end of the string when the expression ends with [$]). *)
Fixpoint lang (dollar : bool) (p : list atom) (s : string) : Prop :=
  match p with
  | [] => if dollar then s = "" else True
  | a :: p' =>
      match rep a with
      | Once =>
          exists c s', s = String c s' /\ cls a c = true /\ lang dollar p' s'
      | Opt =>
          (exists c s', s = String c s' /\ cls a c = true /\ lang dollar p' s')
          \/ lang dollar p' s
      | Star =>
          exists u v, s = (u ++ v)%string /\ all_chars (cls a) u = true
                      /\ lang dollar p' v
      end
  end.

(** The longest prefix without a line terminator: what a greedy [.*] takes. *)
Fixpoint dot_prefix (s : string) : string :=
  match s with
  | "" => ""
  | String c s' => if dot c then String c (dot_prefix s') else ""
  end.

(** The two shapes [isSplLine] accepts, read off its regular expressions:
    blanks, an exclamation mark, a bracketed text, a parenthesised text
    without closing parenthesis inside, blanks or newlines; and blanks, a
    text that starts with [<] and ends with [>], blanks or newlines. *)
Definition image_line (l : string) : Prop :=
  exists w alt url w',
    l = (w ++ "![" ++ alt ++ "](" ++ url ++ ")" ++ w')%string
    /\ all_chars (one_of [SP; TAB]) w = true
    /\ all_chars dot alt = true
    /\ all_chars (fun c => negb (one_of [")"%char] c)) url = true
    /\ all_chars (one_of [SP; TAB; LF]) w' = true.

Definition tag_line (l : string) : Prop :=
  exists w body w',
    l = (w ++ "<" ++ body ++ ">" ++ w')%string
    /\ all_chars (one_of [SP; TAB]) w = true
    /\ all_chars dot body = true
    /\ all_chars (one_of [SP; TAB; LF]) w' = true.

(** Following the spec's words, not the code: a line that holds only one
    image reference [![alt](url)], or only one markup tag [<...>], with
    optional white space around it. *)
Fixpoint spec_tag_rest (s : string) : bool :=
  match s with
  | "" => false
  | String c s' =>
      match s' with
      | "" => Ascii.eqb c ">"
      | _ => negb (one_of ["<"%char; ">"%char] c) && spec_tag_rest s'
      end
  end.

Definition spec_single_tag (l : string) : bool :=
  match trim l with
  | String c rest => Ascii.eqb c "<" && spec_tag_rest rest
  | "" => false
  end.

Fixpoint spec_image_url (s : string) : bool :=
  match s with
  | "" => false
  | String c s' =>
      match s' with
      | "" => Ascii.eqb c ")"
      | _ => negb (Ascii.eqb c ")") && spec_image_url s'
      end
  end.

Fixpoint spec_image_alt (s : string) : bool :=
  match s with
  | "" => false
  | String c s' =>
      if Ascii.eqb c "]" then
        match s' with
        | String c' url => Ascii.eqb c' "(" && spec_image_url url
        | "" => false
        end
      else spec_image_alt s'
  end.

Definition spec_image_only (l : string) : bool :=
  match trim l with
  | String c1 (String c2 rest) =>
      Ascii.eqb c1 "!" && Ascii.eqb c2 "[" && spec_image_alt rest
  | _ => false
  end.

Definition spec_isSplLine (l : string) : bool :=
  spec_image_only l || spec_single_tag l.

(** The comment marker: two characters, each a slash or a hash, and two
    stars. *)
Definition comment_char (c : ascii) : bool := one_of ["/"%char; "#"%char] c.

Definition marker (m : string) : Prop :=
  exists c1 c2,
    comment_char c1 = true /\ comment_char c2 = true
    /\ m = String c1 (String c2 "**").

(** The line ends with a marker, or with a marker and one blank. *)
Definition ends_in_marker (l : string) : Prop :=
  exists pre m, marker m /\ (l = (pre ++ m)%string \/ l = (pre ++ m ++ " ")%string).

(** A marker followed by a blank starts at position [k] of the line. *)
Definition marker_at (l : string) (k : nat) : Prop :=
  exists pre m rest,
    marker m /\ l = (pre ++ m ++ " " ++ rest)%string /\ String.length pre = k.




(** [xtract_1] on the lines of a file, and the payloads of the
    documentation lines among them, in order. *)
Definition xtract_lines (lines : list string) (docblocks : list (list string))
  : list (list string) :=
  fst (fold_left xtract_line lines (docblocks, false)).

Definition payloads (lines : list string) : list string :=
  flat_map
    (fun l => match xtract_doc_comment_1 l with Some doc => [doc] | None => [] end)
    lines.

(** The contents of the files [x_1] reads, in the order it reads them. *)
Fixpoint files_of_entry (exts : list string) (ntry : dirent) {struct ntry}
  : list string :=
  match ntry with
  | Directory name entries =>
      if is_ok_1 name then flat_map (files_of_entry exts) entries else []
  | RegularFile name content =>
      if negb (falsy name) && existsb (fun ext => endsWith name ext) exts
      then [content] else []
  | OtherEntry _ => []
  end.

Definition read_files (exts : list string) (ntries : list dirent) : list string :=
  flat_map (files_of_entry exts) ntries.

(** The blocks of each file, extracted on its own, file after file. *)
Definition blocks_of_files (files : list string) : list (list string) :=
  flat_map (fun content => xtract_1 content []) files.

(* ================================================================== *)
(** * Properties *)

(** ** Strings *)

Lemma append_nil_r (s : string) : (s ++ "")%string = s.
Proof. induction s; simpl; congruence. Qed.

Lemma append_assoc (a b c : string) : ((a ++ b) ++ c)%string = (a ++ (b ++ c))%string.
Proof. induction a; simpl; congruence. Qed.

Lemma trimEnd_idem (s : string) : trimEnd (trimEnd s) = trimEnd s.
Proof.
  induction s as [|c s IH]; simpl; [reflexivity|].
  destruct (trimEnd s) as [|c' t] eqn:E.
  - destruct (is_ws c) eqn:W; simpl; [reflexivity|]. now rewrite W.
  - simpl in *. now rewrite IH.
Qed.

Lemma trimStart_cases (s : string) :
  trimStart s = "" \/ exists c r, trimStart s = String c r /\ is_ws c = false.
Proof.
  induction s as [|c s IH]; simpl; [now left|].
  destruct (is_ws c) eqn:W; [exact IH|]. right. now exists c, s.
Qed.

Lemma trimEnd_keeps_head (c : ascii) (r : string) :
  is_ws c = false -> exists r', trimEnd (String c r) = String c r'.
Proof.
  intros W. simpl. destruct (trimEnd r); [rewrite W|]; eauto.
Qed.

Lemma trimStart_trim (s : string) : trimStart (trim s) = trim s.
Proof.
  unfold trim. destruct (trimStart_cases s) as [E|(c & r & E & W)]; rewrite E.
  - reflexivity.
  - destruct (trimEnd_keeps_head c r W) as [r' E']. rewrite E'. simpl. now rewrite W.
Qed.

Lemma trim_idem (s : string) : trim (trim s) = trim s.
Proof.
  unfold trim at 1. rewrite trimStart_trim. unfold trim. apply trimEnd_idem.
Qed.

Lemma trimEnd_app_ws (s : string) (c : ascii) :
  is_ws c = true -> trimEnd (s ++ String c "") = trimEnd s.
Proof.
  intros W. induction s as [|a s IH]; simpl; [now rewrite W|]. now rewrite IH.
Qed.

Lemma trimStart_app_ws (s : string) (c : ascii) :
  is_ws c = true ->
  trimStart (s ++ String c "") = trimStart s
  \/ trimStart (s ++ String c "") = (trimStart s ++ String c "")%string.
Proof.
  intros W. induction s as [|a s IH]; simpl.
  - rewrite W. now left.
  - destruct (is_ws a); [exact IH|]. now right.
Qed.

Lemma trim_app_ws (s : string) (c : ascii) :
  is_ws c = true -> trim (s ++ String c "") = trim s.
Proof.
  intros W. unfold trim.
  destruct (trimStart_app_ws s c W) as [E|E]; rewrite E; [reflexivity|].
  now apply trimEnd_app_ws.
Qed.

Lemma join_empty_app (l1 l2 : list string) :
  join_empty (l1 ++ l2) = (join_empty l1 ++ join_empty l2)%string.
Proof.
  induction l1 as [|x l1 IH]; simpl; [reflexivity|]. now rewrite IH, append_assoc.
Qed.

Lemma join_terminated (ls : list string) :
  ls <> [] ->
  join_empty (map (fun l => (l ++ nl)%string) ls) = (join nl ls ++ nl)%string.
Proof.
  induction ls as [|x ls IH]; [congruence|]. intros _.
  destruct ls as [|y ls].
  - simpl. now rewrite append_nil_r.
  - change (join nl (x :: y :: ls)) with (x ++ nl ++ join nl (y :: ls))%string.
    change (join_empty (map (fun l => (l ++ nl)%string) (x :: y :: ls)))
      with ((x ++ nl) ++ join_empty (map (fun l => (l ++ nl)%string) (y :: ls)))%string.
    rewrite IH by discriminate. now rewrite !append_assoc.
Qed.

(** Lines that are each newline-terminated and then trimmed as a whole are
    the lines joined by newlines and trimmed. *)
Lemma trim_terminated (ls : list string) :
  trim (join_empty (map (fun l => (l ++ nl)%string) ls)) = trim (join nl ls).
Proof.
  destruct ls as [|x ls]; [reflexivity|].
  rewrite join_terminated by discriminate. now apply trim_app_ws.
Qed.

(** Trimming takes white space off both ends, and nothing else. *)
Lemma trimStart_decompose (s : string) :
  exists lead, s = (lead ++ trimStart s)%string /\ all_chars is_ws lead = true.
Proof.
  induction s as [|c s (lead & E & A)]; [now exists ""|]. simpl.
  destruct (is_ws c) eqn:W; [|now exists ""].
  exists (String c lead). simpl. rewrite W, A. split; [now f_equal|reflexivity].
Qed.

Lemma trimEnd_decompose (s : string) :
  exists trail, s = (trimEnd s ++ trail)%string /\ all_chars is_ws trail = true.
Proof.
  induction s as [|c s (trail & E & A)]; [now exists ""|]. simpl.
  destruct (trimEnd s) as [|c' t] eqn:T.
  - simpl in E. subst s. destruct (is_ws c) eqn:W.
    + exists (String c trail). simpl. now rewrite W, A.
    + now exists trail.
  - exists trail. split; [|exact A]. simpl. now f_equal.
Qed.

Lemma trim_decompose (s : string) :
  exists lead trail,
    s = (lead ++ trim s ++ trail)%string
    /\ all_chars is_ws lead = true /\ all_chars is_ws trail = true.
Proof.
  destruct (trimStart_decompose s) as (lead & E & A).
  destruct (trimEnd_decompose (trimStart s)) as (trail & E' & A').
  exists lead, trail. unfold trim. now rewrite <- E', <- E.
Qed.

Lemma trim_first (s : string) (c : ascii) (r : string) :
  trim s = String c r -> is_ws c = false.
Proof.
  unfold trim. destruct (trimStart_cases s) as [E|(c' & r' & E & W)]; rewrite E.
  - discriminate.
  - destruct (trimEnd_keeps_head c' r' W) as [r'' E']. rewrite E'.
    intros H. now injection H as <- _.
Qed.

Lemma trimEnd_last (s r : string) (c : ascii) :
  trimEnd s = (r ++ String c "")%string -> is_ws c = false.
Proof.
  revert r. induction s as [|a s IH]; intros r; simpl.
  - destruct r; discriminate.
  - destruct (trimEnd s) as [|c' t] eqn:T.
    + destruct (is_ws a) eqn:W; [destruct r; discriminate|].
      destruct r as [|a' r]; simpl; intros H.
      * now injection H as <-.
      * injection H as _ H. destruct r; discriminate.
    + destruct r as [|a' r]; simpl; intros H; [discriminate|].
      injection H as _ H. now apply (IH r).
Qed.

Lemma trim_last (s r : string) (c : ascii) :
  trim s = (r ++ String c "")%string -> is_ws c = false.
Proof. apply trimEnd_last. Qed.

Lemma join_empty_fold (ls : list string) :
  join_empty ls = fold_right append "" ls.
Proof. induction ls as [|l ls IH]; simpl; congruence. Qed.

(** ** [saveReadme] and [asDiff] *)

Lemma saveReadme_pushes (diff : list part) (o : list string) :
  fold_left
    (fun o part =>
       if fresh part then o ++ [value part]
       else if removed part then o
       else if added part then o ++ [value part]
       else o ++ [value part])
    diff o
  = o ++ map value (filter kept diff).
Proof.
  revert o. induction diff as [|p diff IH]; intros o; simpl.
  - now rewrite app_nil_r.
  - rewrite IH. unfold kept, classify.
    destruct (fresh p), (removed p), (added p); simpl;
      now rewrite <- ?app_assoc.
Qed.

Lemma saveReadme_kept (diff : list part) :
  saveReadme diff = trim (join_empty (map value (filter kept diff))).
Proof. unfold saveReadme. now rewrite saveReadme_pushes. Qed.

Lemma kept_iff (p : part) : kept p = true <-> classify p <> Removed.
Proof.
  unfold kept. destruct (classify p); split; intros H; try reflexivity;
    try discriminate; congruence.
Qed.

Lemma asDiff_pushes (docblocks : list (list string)) (diff : list part) :
  fold_left
    (fun diff block =>
       diff ++ map (fun value => Part true false false (value ++ nl)) block)
    docblocks diff
  = diff ++ map (fun value => Part true false false (value ++ nl)) (List.concat docblocks).
Proof.
  revert diff. induction docblocks as [|b bs IH]; intros diff; simpl.
  - now rewrite app_nil_r.
  - now rewrite IH, map_app, app_assoc.
Qed.

Lemma asDiff_flat (docblocks : list (list string)) :
  asDiff docblocks
  = map (fun value => Part true false false (value ++ nl)) (List.concat docblocks).
Proof. unfold asDiff. now rewrite asDiff_pushes. Qed.

Lemma asDiff_fresh (docblocks : list (list string)) :
  Forall (fun p => classify p = Fresh) (asDiff docblocks).
Proof.
  rewrite asDiff_flat. apply Forall_forall. intros p Hp.
  apply in_map_iff in Hp as (v & <- & _). reflexivity.
Qed.

Lemma filter_all {A} (f : A -> bool) (l : list A) :
  Forall (fun x => f x = true) l -> filter f l = l.
Proof.
  induction 1 as [|x l Hx _ IH]; simpl; [reflexivity|]. now rewrite Hx, IH.
Qed.

Lemma saveReadme_asDiff (docblocks : list (list string)) :
  saveReadme (asDiff docblocks)
  = trim (join_empty (map (fun l => (l ++ nl)%string) (List.concat docblocks))).
Proof.
  rewrite saveReadme_kept, filter_all.
  - rewrite asDiff_flat, map_map. reflexivity.
  - eapply Forall_impl; [|apply asDiff_fresh].
    intros p Hp. unfold kept. now rewrite Hp.
Qed.

Lemma whole_diff_lawful : lawful_diff whole_diff.
Proof.
  split; intros; unfold whole_diff.
  - destruct (String.eqb_spec a b); simpl; subst; now rewrite append_nil_r.
  - destruct (String.eqb_spec a b); simpl; subst; now rewrite append_nil_r.
  - destruct (a =? b)%string; repeat constructor.
  - rewrite String.eqb_refl. repeat constructor.
Qed.

Section DiffMerge.

Variable diffLines : string -> string -> list part.
Hypothesis lawful : lawful_diff diffLines.

Lemma diff_kept (a b : string) :
  filter kept (diffLines a b) = filter (fun p => negb (removed p)) (diffLines a b).
Proof.
  apply filter_ext_in. intros p Hp.
  pose proof (diff_not_fresh _ lawful a b) as F.
  rewrite Forall_forall in F. specialize (F p Hp).
  unfold kept, classify. rewrite F. now destruct (removed p), (added p).
Qed.

(** Saving a diff writes the new text, trimmed. *)
Lemma saveReadme_diff (a b : string) : saveReadme (diffLines a b) = trim b.
Proof. now rewrite saveReadme_kept, diff_kept, (diff_new _ lawful). Qed.


Lemma regen_readme_data (readme : string) (docblocks : list (list string)) :
  regen_readme diffLines readme docblocks
  = match min_data (regen_search readme docblocks) with
    | Some merged => Some (trim (join nl merged))
    | None => None
    end.
Proof.
  unfold regen_readme, regen_data.
  destruct (min_data (regen_search readme docblocks)); [|reflexivity].
  now rewrite saveReadme_diff, trim_idem.
Qed.

End DiffMerge.

(** The same from the two conditions that matter for the text written: the
    parts that are not removed spell the new text, and no part is fresh. *)
Lemma saveReadme_diff_new (diffLines : string -> string -> list part) :
  (forall a b,
      join_empty (map value (filter (fun p => negb (removed p)) (diffLines a b))) = b) ->
  (forall a b, Forall (fun p => fresh p = false) (diffLines a b)) ->
  forall a b, saveReadme (diffLines a b) = trim b.
Proof.
  intros Hnew Hfresh a b. rewrite saveReadme_kept.
  replace (filter kept (diffLines a b))
    with (filter (fun p => negb (removed p)) (diffLines a b)); [now rewrite Hnew|].
  apply filter_ext_in. intros p Hp.
  pose proof (Hfresh a b) as F. rewrite Forall_forall in F. specialize (F p Hp).
  unfold kept, classify. rewrite F. now destruct (removed p), (added p).
Qed.

(** C9.  In the text [saveReadme] writes, a part classified removed is
    dropped: it contributes nothing, wherever it stands in the diff.  The
    values of the parts classified unchanged, added or fresh are kept in
    the order of the diff and concatenated, and the text written is that
    concatenation without the white space at its two ends.  Each line is
    newline-terminated in it: [asDiff] ends every fresh line with a newline,
    and the text of a diff against the merged lines is the text of those
    lines, each ended by a newline, trimmed. *)
Theorem C9_removed_dropped_rest_kept_in_order :
  (forall diff : list part,
      let values :=
        map value
            (filter (fun p => match classify p with Removed => false | _ => true end)
                    diff) in
      exists lead trail,
        fold_right append "" values = (lead ++ saveReadme diff ++ trail)%string
        /\ all_chars is_ws lead = true /\ all_chars is_ws trail = true)
  /\ (forall (diff : list part) (c : ascii) (rest : string),
        saveReadme diff = String c rest -> is_ws c = false)
  /\ (forall (diff : list part) (rest : string) (c : ascii),
        saveReadme diff = (rest ++ String c "")%string -> is_ws c = false)
  /\ (forall (d1 d2 : list part) (p : part),
        classify p = Removed -> saveReadme (d1 ++ p :: d2) = saveReadme (d1 ++ d2))
  /\ (forall docblocks : list (list string),
        map value (asDiff docblocks)
        = map (fun l => (l ++ nl)%string) (List.concat docblocks)
        /\ Forall (fun p => classify p = Fresh) (asDiff docblocks))
  /\ (forall diffLines : string -> string -> list part,
        (forall a b,
            join_empty (map value (filter (fun p => negb (removed p)) (diffLines a b)))
            = b) ->
        (forall a b, Forall (fun p => fresh p = false) (diffLines a b)) ->
        forall (old : string) (merged : list string),
          saveReadme (diffLines old (trim (join nl merged)))
          = saveReadme (map (fun l => Part false false false (l ++ nl)) merged))
  /\ saveReadme [ Part false false false (" a" ++ nl);
                  Part false false true ("x" ++ nl);
                  Part false true false ("b" ++ nl);
                  Part false true true ("y" ++ nl);
                  Part true false true (" c " ++ nl);
                  Part true false false ("d" ++ nl);
                  Part false false false nl ]
     = unlines ["a"; "b"; " c "; "d"].
Proof.
  split; [|split; [|split; [|split; [|split; [|split]]]]].
  - intros diff values. subst values.
    change (fun p => match classify p with Removed => false | _ => true end)
      with kept.
    rewrite <- join_empty_fold, saveReadme_kept. apply trim_decompose.
  - intros diff c rest. rewrite saveReadme_kept. apply trim_first.
  - intros diff rest c. rewrite saveReadme_kept. apply trim_last.
  - intros d1 d2 p Hp. rewrite !saveReadme_kept, !filter_app. simpl.
    unfold kept at 2. now rewrite Hp.
  - intros docblocks. split; [|apply asDiff_fresh].
    rewrite asDiff_flat, map_map. reflexivity.
  - intros diffLines Hnew Hfresh old merged.
    rewrite (saveReadme_diff_new diffLines Hnew Hfresh), trim_idem.
    rewrite saveReadme_kept, filter_all, map_map, <- trim_terminated.
    + reflexivity.
    + apply Forall_forall. intros p Hp. apply in_map_iff in Hp as (l & <- & _).
      reflexivity.
  - vm_compute. reflexivity.
Qed.

Lemma C9_removed_dropped_rest_kept_in_order_witness :
  saveReadme (added_diff (unlines ["old"]) (trim (join nl ["a"; " b"; ""])))
  = saveReadme [ Part false false false ("a" ++ nl);
                 Part false false false (" b" ++ nl);
                 Part false false false nl ]
  /\ saveReadme (added_diff (unlines ["old"]) (trim (join nl ["a"; " b"; ""])))
     = unlines ["a"; " b"].
Proof.
  split; [|vm_compute; reflexivity].
  destruct C9_removed_dropped_rest_kept_in_order as (_ & _ & _ & _ & _ & H & _).
  apply (H added_diff).
  - intros a b. simpl. apply append_nil_r.
  - intros a b. repeat constructor.
Defined.

(** ** The lookahead of the mismatch branch *)

Section AlignerFacts.

Variable rlines : list string.

Lemma lookahead_spec (s : walk_state) (ld lr : string) (k i : nat) :
  match lookahead rlines s ld lr k i with
  | HitRef j =>
      i <= j < i + k /\ ref_hit rlines s ld j = true /\ no_hit_before rlines s ld lr i j
  | HitData j =>
      i <= j < i + k /\ ref_hit rlines s ld j = false /\ data_hit s lr j = true
      /\ no_hit_before rlines s ld lr i j
  | Miss => no_hit_before rlines s ld lr i (i + k)
  end.
Proof.
  revert i. induction k as [|k IH]; intros i; simpl.
  - intros j' Hj'. lia.
  - fold (ref_hit rlines s ld i). fold (data_hit s lr i).
    destruct (ref_hit rlines s ld i) eqn:R.
    { split; [lia|]. split; [exact R|]. intros j' Hj'. lia. }
    destruct (data_hit s lr i) eqn:D.
    { split; [lia|]. do 2 (split; [assumption|]). intros j' Hj'. lia. }
    specialize (IH (S i)).
    assert (Hstep : forall j, no_hit_before rlines s ld lr (S i) j -> no_hit_before rlines s ld lr i j).
    { intros j H j' Hj'. destruct (Nat.eq_dec j' i) as [->|Hne]; [auto|].
      apply H. lia. }
    destruct (lookahead rlines s ld lr k (S i)) as [j|j|].
    + destruct IH as (Hr & Hh & Hb). split; [lia|]. split; auto.
    + destruct IH as (Hr & Hh & Hd & Hb). split; [lia|]. do 2 (split; auto).
    + apply Hstep. replace (i + S k) with (S i + k) by lia. exact IH.
Qed.

Lemma mismatch_moves (s : walk_state) :
  data (mismatch rlines s) = data s
  /\ nd s < nd (mismatch rlines s)
  /\ nr s < nr (mismatch rlines s)
  /\ dist s < dist (mismatch rlines s).
Proof.
  unfold mismatch.
  pose proof (lookahead_spec s (nth (nd s) (data s) "") (nth (nr s) rlines "")
                (maxLookAhead - 1) 1) as H.
  destruct (lookahead rlines s _ _ _ _) as [j|j|]; simpl; repeat split; lia.
Qed.

End AlignerFacts.

(** ** The walk of [find_min_1] *)

Lemma subseq_nil_r (l : list string) : subseq l [] -> l = [].
Proof. destruct l; simpl; tauto. Qed.

Lemma subseq_nil_l (l : list string) : subseq [] l.
Proof. destruct l; exact I. Qed.

Lemma subseq_cons_r (l1 l2 : list string) (y : string) :
  subseq l1 l2 -> subseq l1 (y :: l2).
Proof. destruct l1; simpl; auto. Qed.

Lemma subseq_refl (l : list string) : subseq l l.
Proof. induction l; simpl; auto. Qed.

Lemma subseq_trans (l1 l2 l3 : list string) :
  subseq l1 l2 -> subseq l2 l3 -> subseq l1 l3.
Proof.
  revert l1 l2. induction l3 as [|z l3 IH]; intros l1 l2 H12 H23.
  - apply subseq_nil_r in H23. subst. apply subseq_nil_r in H12. now subst.
  - destruct l2 as [|y l2].
    + apply subseq_nil_r in H12. now subst.
    + destruct l1 as [|x l1]; [exact I|].
      simpl in H12, H23 |- *.
      destruct H23 as [[-> H23]|H23].
      * destruct H12 as [[-> H12]|H12]; [left|right]; eauto.
      * right. eapply IH; [|exact H23]. simpl. exact H12.
Qed.

Lemma subseq_app (l1 l2 m1 m2 : list string) :
  subseq l1 m1 -> subseq l2 m2 -> subseq (l1 ++ l2) (m1 ++ m2).
Proof.
  revert l1. induction m1 as [|y m1 IH]; intros l1 H1 H2.
  - apply subseq_nil_r in H1. now subst.
  - destruct l1 as [|x l1].
    + simpl. apply subseq_cons_r. apply (IH []); [apply subseq_nil_l|exact H2].
    + simpl in H1 |- *. destruct H1 as [[-> H1]|H1]; [left|right]; auto.
      now apply (IH (x :: l1)).
Qed.

Lemma subseq_app_l (l m : list string) : subseq l (m ++ l).
Proof. apply (subseq_app [] l m l); [apply subseq_nil_l|apply subseq_refl]. Qed.

Lemma subseq_app_r (l m : list string) : subseq l (l ++ m).
Proof.
  rewrite <- (app_nil_r l) at 1. apply subseq_app; [apply subseq_refl|].
  apply subseq_nil_l.
Qed.

Lemma subseq_splice (i : nat) (x : string) (a : list string) :
  subseq a (splice i x a).
Proof.
  unfold splice. rewrite <- (firstn_skipn i a) at 1.
  apply subseq_app; [apply subseq_refl|]. apply subseq_cons_r, subseq_refl.
Qed.

Lemma subseqb_spec (l1 l2 : list string) : subseqb l1 l2 = true <-> subseq l1 l2.
Proof.
  revert l1. induction l2 as [|y l2 IH]; intros [|x l1]; simpl;
    try (split; intros H; [exact I|reflexivity]);
    try (split; intros H; [discriminate|contradiction]).
  rewrite orb_true_iff, andb_true_iff, String.eqb_eq, !IH. reflexivity.
Qed.

Lemma splice_length (i : nat) (x : string) (a : list string) :
  List.length (splice i x a) = S (List.length a).
Proof.
  unfold splice. rewrite length_app. simpl.
  rewrite <- (firstn_skipn i a) at 3. rewrite length_app. lia.
Qed.

Section WalkFacts.

Variable rlines : list string.

Lemma in_range (s : walk_state) :
  ((nd s <? List.length (data s)) && (nr s <? List.length rlines))%nat = true ->
  nd s < List.length (data s) /\ nr s < List.length rlines.
Proof. intros H. apply andb_prop in H as [H1 H2]. now apply Nat.ltb_lt in H1, H2. Qed.

(** The loop always ends: with [slack] rounds of fuel it is never cut short. *)
Lemma walk_terminates (best : option nat) (fuel : nat) (s : walk_state) :
  slack rlines s <= fuel -> walk rlines best fuel s <> OutOfFuel.
Proof.
  functional induction (walk rlines best fuel s); intros Hf;
    try discriminate;
    try (apply in_range in e as [Hd Hr]; unfold slack in *; simpl in *).
  - lia.
  - apply IHo. lia.
  - apply IHo. lia.
  - apply IHo. rewrite splice_length. lia.
  - apply IHo.
    destruct (mismatch_moves rlines s) as (Ed & Hnd & Hnr & _).
    unfold slack. rewrite Ed. lia.
Qed.

(** The distance never goes down during a run. *)
Lemma walk_dist_mono (best : option nat) (fuel : nat) (s : walk_state)
  (d : nat) (m : list string) :
  walk rlines best fuel s = Finished d m -> dist s <= d.
Proof.
  functional induction (walk rlines best fuel s); intros H;
    try discriminate; try (apply IHo in H; simpl in H; try lia).
  - destruct (mismatch_moves rlines s) as (_ & _ & _ & Hd). lia.
  - injection H as <- _. lia.
Qed.

(** The run only ever inserts lines into [data]. *)
Lemma walk_subseq (best : option nat) (fuel : nat) (s : walk_state)
  (d : nat) (m : list string) :
  walk rlines best fuel s = Finished d m -> subseq (data s) m.
Proof.
  functional induction (walk rlines best fuel s); intros H;
    try discriminate; try (apply IHo in H; simpl in H; try exact H).
  - eapply subseq_trans; [apply subseq_splice|exact H].
  - destruct (mismatch_moves rlines s) as (Ed & _). now rewrite Ed in H.
  - injection H as _ <-. apply subseq_refl.
Qed.

(** Early abort is sound: a run that knows a best-so-far [b] ends as the
    run that knows none does when the distance stays within [b], and is
    cut short exactly when the full distance exceeds [b]. *)
Lemma walk_bounded (b : nat) (fuel : nat) (s : walk_state)
  (d : nat) (m : list string) :
  dist s <= b ->
  walk rlines None fuel s = Finished d m ->
  walk rlines (Some b) fuel s = if (b <? d)%nat then Aborted else Finished d m.
Proof.
  functional induction (walk rlines None fuel s); intros Hb H;
    try discriminate; rewrite walk_equation, ?e, ?e0, ?e1, ?e2, ?e3;
    try (now auto).
  - simpl. destruct (b <? dist (mismatch rlines s))%nat eqn:E.
    + apply walk_dist_mono in H. apply Nat.ltb_lt in E.
      assert (b < d) as ->%Nat.ltb_lt by lia. reflexivity.
    + apply Nat.ltb_ge in E. auto.
  - injection H as <- <-. apply Nat.ltb_ge in Hb. now rewrite Hb.
Qed.

End WalkFacts.

(** ** The orderings generated by [gen_1] *)

Lemma chosen_get_set (chosen : list bool) (i j : nat) (v : bool) :
  chosen_get (chosen_set chosen i v) j
  = if (i =? j)%nat then v else chosen_get chosen j.
Proof.
  unfold chosen_get. revert chosen j.
  induction i as [|i IH]; intros [|h t] [|j]; simpl; try reflexivity.
  - now destruct j.
  - rewrite IH. now destruct j.
  - apply IH.
Qed.

Lemma fold_left_collect {A B} (F : list B -> A -> list B) (G : A -> list B) :
  (forall acc i, F acc i = acc ++ G i) ->
  forall l acc, fold_left F l acc = acc ++ flat_map G l.
Proof.
  intros HF. induction l as [|i l IH]; intros acc; simpl.
  - now rewrite app_nil_r.
  - now rewrite IH, HF, app_assoc.
Qed.

Lemma fold_left_flat_map {A B S} (f : S -> B -> S) (G : A -> list B) (l : list A) :
  forall st, fold_left f (flat_map G l) st
             = fold_left (fun st i => fold_left f (G i) st) l st.
Proof.
  induction l as [|i l IH]; intros st; simpl; [reflexivity|].
  now rewrite fold_left_app, IH.
Qed.

Lemma fold_left_ext {A S} (f g : S -> A -> S) (l : list A) :
  (forall st i, f st i = g st i) -> forall st, fold_left f l st = fold_left g l st.
Proof.
  intros H. induction l as [|i l IH]; intros st; simpl; [reflexivity|].
  now rewrite H, IH.
Qed.

Section GeneratorFacts.

Variable docblocks : list (list string).

Let n := List.length docblocks.

Lemma gen_1_collect (fuel : nat) :
  forall chosen perm acc,
    gen_1 _ docblocks (fun perm acc => acc ++ [perm]) fuel chosen perm acc
    = acc ++ enumerate docblocks fuel chosen perm.
Proof.
  unfold enumerate.
  induction fuel as [|fuel IH]; intros chosen perm acc; simpl;
    destruct (List.length perm =? List.length docblocks)%nat; try reflexivity.
  - now rewrite app_nil_r.
  - assert (HF : forall a i,
               (if chosen_get chosen i then a
                else gen_1 _ docblocks (fun perm acc => acc ++ [perm]) fuel
                       (chosen_set chosen i true) (perm ++ [nth i docblocks []]) a)
               = a ++ branch docblocks fuel chosen perm i).
    { intros a i. unfold branch, enumerate.
      destruct (chosen_get chosen i); [now rewrite app_nil_r|apply IH]. }
    now rewrite !(fold_left_collect _ _ HF).
Qed.

Lemma enumerate_unfold (fuel : nat) (chosen : list bool) (perm : list (list string)) :
  enumerate docblocks fuel chosen perm
  = if (List.length perm =? n)%nat then [perm]
    else match fuel with
         | 0 => []
         | S fuel' => flat_map (branch docblocks fuel' chosen perm) (seq 0 n)
         end.
Proof.
  unfold enumerate at 1. destruct fuel as [|fuel]; simpl; fold n;
    destruct (List.length perm =? n)%nat; try reflexivity.
  rewrite (fold_left_collect _ (branch docblocks fuel chosen perm)); [reflexivity|].
  intros a i. unfold branch. destruct (chosen_get chosen i);
    [now rewrite app_nil_r|apply gen_1_collect].
Qed.

(** [gen_1(cb)] calls [cb] on the enumerated orderings, one after the other. *)
Lemma gen_1_fold {State} (cb : list (list string) -> State -> State) (fuel : nat) :
  forall chosen perm st,
    gen_1 State docblocks cb fuel chosen perm st
    = fold_left (fun st p => cb p st) (enumerate docblocks fuel chosen perm) st.
Proof.
  induction fuel as [|fuel IH]; intros chosen perm st;
    rewrite enumerate_unfold; simpl; fold n;
    destruct (List.length perm =? n)%nat; try reflexivity.
  rewrite fold_left_flat_map. apply fold_left_ext.
  intros st' i. unfold branch. destruct (chosen_get chosen i); [reflexivity|apply IH].
Qed.

End GeneratorFacts.

Lemma nth_map_seq {A} (F : nat -> A) (k i : nat) (d : A) :
  i < k -> nth i (map F (seq 0 k)) d = F i.
Proof.
  intros Hi. rewrite nth_indep with (d' := F 0) by now rewrite length_map, length_seq.
  now rewrite map_nth, seq_nth.
Qed.

Lemma flat_map_unless {A B} (p : A -> bool) (F : A -> list B) (l : list A) :
  flat_map (fun i => if p i then [] else F i) l
  = flat_map F (filter (fun i => negb (p i)) l).
Proof.
  induction l as [|x l IH]; simpl; [reflexivity|].
  destruct (p x); simpl; now rewrite IH.
Qed.

Lemma map_flat_map {A B C} (g : B -> C) (F : A -> list B) (l : list A) :
  map g (flat_map F l) = flat_map (fun i => map g (F i)) l.
Proof.
  induction l as [|x l IH]; simpl; [reflexivity|]. now rewrite map_app, IH.
Qed.

Lemma flat_map_ext_in {A B} (F G : A -> list B) (l : list A) :
  (forall i, In i l -> F i = G i) -> flat_map F l = flat_map G l.
Proof.
  induction l as [|x l IH]; intros H; simpl; [reflexivity|].
  rewrite H by now left. rewrite IH; [reflexivity|]. intros i Hi. apply H. now right.
Qed.

Section Orderings.

Variable docblocks : list (list string).

Let n := List.length docblocks.

Lemma marks_nil : marks [] [].
Proof. intros i. unfold chosen_get. destruct i; simpl; split; intros H; now inversion H. Qed.

Lemma marks_snoc (chosen : list bool) (sigma : list nat) (i : nat) :
  marks chosen sigma -> marks (chosen_set chosen i true) (sigma ++ [i]).
Proof.
  intros M j. rewrite chosen_get_set, in_app_iff. simpl.
  destruct (Nat.eqb_spec i j) as [->|Hne].
  - tauto.
  - rewrite (M j). intuition congruence.
Qed.

Lemma blocks_at_snoc (sigma : list nat) (i : nat) :
  blocks_at docblocks sigma ++ [nth i docblocks []] = blocks_at docblocks (sigma ++ [i]).
Proof. unfold blocks_at. now rewrite map_app. Qed.

(** Every ordering handed to the callback lists each block index once. *)
Lemma enumerate_sound (fuel : nat) :
  forall chosen sigma P,
    marks chosen sigma -> NoDup sigma -> (forall i, In i sigma -> i < n) ->
    In P (enumerate docblocks fuel chosen (blocks_at docblocks sigma)) ->
    exists tau, P = blocks_at docblocks tau /\ NoDup tau
                /\ (forall i, In i tau -> i < n) /\ List.length tau = n.
Proof.
  induction fuel as [|fuel IH]; intros chosen sigma P M ND B;
    rewrite enumerate_unfold; fold n;
    destruct (Nat.eqb_spec (List.length (blocks_at docblocks sigma)) n) as [E|E];
    simpl; try tauto.
  - intros [<-|[]]. exists sigma. unfold blocks_at in E. rewrite length_map in E. auto.
  - intros [<-|[]]. exists sigma. unfold blocks_at in E. rewrite length_map in E. auto.
  - intros H. apply in_flat_map in H as (i & Hi & H). unfold branch in H.
    destruct (chosen_get chosen i) eqn:C; [contradiction|].
    rewrite blocks_at_snoc in H. apply IH in H; auto.
    + now apply marks_snoc.
    + apply NoDup_app; auto.
      * repeat constructor. intros [].
      * intros j Hj [<-|[]]. apply M in Hj. congruence.
    + intros j Hj. apply in_app_iff in Hj as [Hj|[<-|[]]]; auto.
      apply in_seq in Hi. lia.
Qed.

(** Every duplicate-free list of all block indices is handed to the callback. *)
Lemma enumerate_complete (rest : list nat) :
  forall chosen sigma,
    marks chosen sigma -> NoDup (sigma ++ rest) ->
    (forall i, In i (sigma ++ rest) -> i < n) ->
    List.length (sigma ++ rest) = n ->
    In (blocks_at docblocks (sigma ++ rest))
       (enumerate docblocks (List.length rest) chosen (blocks_at docblocks sigma)).
Proof.
  induction rest as [|i rest IH]; intros chosen sigma M ND B L;
    rewrite enumerate_unfold; fold n; unfold blocks_at at 2; rewrite length_map.
  - rewrite app_nil_r in *. rewrite L, Nat.eqb_refl. now left.
  - rewrite length_app in L. simpl in L.
    destruct (Nat.eqb_spec (List.length sigma) n) as [E|_]; [lia|].
    simpl. apply in_flat_map. exists i. split.
    + apply in_seq. specialize (B i). rewrite in_app_iff in B. simpl in B. lia.
    + unfold branch. destruct (chosen_get chosen i) eqn:C.
      * apply M in C. apply NoDup_remove_2 in ND. rewrite in_app_iff in ND. tauto.
      * rewrite blocks_at_snoc.
        replace (sigma ++ i :: rest) with ((sigma ++ [i]) ++ rest) in *
          by now rewrite <- app_assoc.
        apply IH; auto.
        -- now apply marks_snoc.
        -- rewrite !length_app. simpl. lia.
Qed.

Lemma blocks_at_all : blocks_at docblocks (seq 0 n) = docblocks.
Proof.
  unfold blocks_at. apply nth_ext with (d := []) (d' := []).
  - now rewrite length_map, length_seq.
  - intros i Hi. rewrite length_map, length_seq in Hi.
    now rewrite (nth_map_seq (fun i => nth i docblocks [])).
Qed.

Lemma permutation_indices (P : list (list string)) :
  Permutation docblocks P ->
  exists tau, P = blocks_at docblocks tau /\ NoDup tau
              /\ (forall i, In i tau -> i < n) /\ List.length tau = n.
Proof.
  intros HP. apply Permutation_nth_error in HP as (L & f & Inj & Hf). fold n in L.
  exists (map f (seq 0 n)). split; [|split; [|split]].
  - unfold blocks_at. rewrite map_map.
    apply nth_ext with (d := []) (d' := []).
    + now rewrite length_map, length_seq.
    + intros i Hi. rewrite <- L in Hi.
      rewrite (nth_map_seq (fun i => nth (f i) docblocks [])) by exact Hi.
      specialize (Hf i).
      destruct (nth_error P i) as [b|] eqn:E.
      * rewrite (nth_error_nth _ _ _ E). symmetry in Hf. now rewrite (nth_error_nth _ _ _ Hf).
      * apply nth_error_None in E. lia.
  - apply Injective_map_NoDup; [exact Inj|apply seq_NoDup].
  - intros i Hi. apply in_map_iff in Hi as (j & <- & Hj). apply in_seq in Hj.
    specialize (Hf j). assert (nth_error P j <> None) as HS
      by (apply nth_error_Some; lia).
    rewrite Hf in HS. apply nth_error_Some in HS. exact HS.
  - now rewrite length_map, length_seq.
Qed.

(** [gen_1] generates exactly the orderings of the blocks. *)
Lemma orderings_spec (P : list (list string)) :
  In P (orderings docblocks) <-> Permutation docblocks P.
Proof.
  unfold orderings. split.
  - intros H.
    change (In P (enumerate docblocks n [] (blocks_at docblocks []))) in H.
    apply enumerate_sound in H as (tau & -> & ND & B & L);
      [|apply marks_nil|constructor|intros i []].
    rewrite <- blocks_at_all at 1. unfold blocks_at. apply Permutation_map.
    symmetry. apply NoDup_Permutation_bis; auto.
    + rewrite length_seq. fold n. lia.
    + intros i Hi. apply in_seq. specialize (B i Hi). lia.
  - intros H. apply permutation_indices in H as (tau & -> & ND & B & L).
    fold n. rewrite <- L.
    apply (enumerate_complete tau [] []); auto. apply marks_nil.
Qed.

Lemma unchosen_set (chosen : list bool) (i : nat) :
  unchosen n (chosen_set chosen i true) = remove Nat.eq_dec i (unchosen n chosen).
Proof.
  unfold unchosen. induction (seq 0 n) as [|j l IH]; simpl; [reflexivity|].
  rewrite chosen_get_set. destruct (Nat.eqb_spec i j) as [->|Hne]; simpl.
  - rewrite IH. destruct (chosen_get chosen j); simpl; [reflexivity|].
    now destruct (Nat.eq_dec j j).
  - rewrite IH. destruct (chosen_get chosen j); simpl; [reflexivity|].
    now destruct (Nat.eq_dec i j).
Qed.

Lemma unchosen_nil_iff (chosen : list bool) (sigma : list nat) :
  marks chosen sigma -> NoDup sigma -> (forall i, In i sigma -> i < n) ->
  unchosen n chosen = [] <-> List.length sigma = n.
Proof.
  intros M ND B.
  assert (Hin : incl sigma (seq 0 n)).
  { intros i Hi. apply in_seq. specialize (B i Hi). lia. }
  split.
  - intros E. apply Nat.le_antisymm.
    + rewrite <- (length_seq n 0). now apply NoDup_incl_length.
    + rewrite <- (length_seq n 0) at 1. apply NoDup_incl_length; [apply seq_NoDup|].
      intros i Hi. apply M. destruct (chosen_get chosen i) eqn:C; [reflexivity|].
      assert (In i (unchosen n chosen)) as H
        by (apply filter_In; split; [exact Hi|now rewrite C]).
      rewrite E in H. contradiction.
  - intros L. destruct (unchosen n chosen) as [|i l] eqn:E; [reflexivity|]. exfalso.
    assert (In i (unchosen n chosen)) as H by (rewrite E; now left).
    apply filter_In in H as [Hi C].
    assert (In i sigma) as Hs.
    { apply (@NoDup_length_incl _ sigma (seq 0 n) ND);
        [rewrite length_seq; lia|exact Hin|exact Hi]. }
    apply M in Hs. rewrite Hs in C. discriminate.
Qed.

(** [gen_1] hands the orderings to its callback in the lexicographic order
    of the block indices. *)
Lemma enumerate_index_orderings (fuel : nat) :
  forall chosen sigma,
    marks chosen sigma -> NoDup sigma -> (forall i, In i sigma -> i < n) ->
    List.length (unchosen n chosen) <= fuel ->
    enumerate docblocks fuel chosen (blocks_at docblocks sigma)
    = map (fun tau => blocks_at docblocks (sigma ++ tau))
          (index_orderings fuel (unchosen n chosen)).
Proof.
  induction fuel as [|fuel IH]; intros chosen sigma M ND B Hf;
    rewrite enumerate_unfold; fold n; unfold blocks_at at 1; rewrite length_map;
    pose proof (unchosen_nil_iff chosen sigma M ND B) as Hnil;
    destruct (Nat.eqb_spec (List.length sigma) n) as [E|E].
  - apply Hnil in E. rewrite E. simpl. now rewrite app_nil_r.
  - destruct (unchosen n chosen); [tauto|simpl in Hf; lia].
  - apply Hnil in E. rewrite E. simpl. now rewrite app_nil_r.
  - assert (index_orderings (S fuel) (unchosen n chosen)
            = flat_map
                (fun i => map (cons i)
                            (index_orderings fuel
                               (remove Nat.eq_dec i (unchosen n chosen))))
                (unchosen n chosen)) as ->.
    { destruct (unchosen n chosen); [tauto|reflexivity]. }
    rewrite map_flat_map.
    unfold branch. rewrite flat_map_unless. fold (unchosen n chosen).
    apply flat_map_ext_in. intros i Hi.
    rewrite blocks_at_snoc, IH.
    + rewrite unchosen_set, map_map. apply map_ext.
      intros tau. now rewrite <- app_assoc.
    + now apply marks_snoc.
    + apply NoDup_app; auto.
      * repeat constructor. intros [].
      * intros j Hj [<-|[]]. apply filter_In in Hi as [_ C].
        apply M in Hj. rewrite Hj in C. discriminate.
    + intros j Hj. apply in_app_iff in Hj as [Hj|[<-|[]]]; auto.
      apply filter_In in Hi as [Hi _]. apply in_seq in Hi. lia.
    + rewrite unchosen_set.
      pose proof (remove_length_lt Nat.eq_dec (unchosen n chosen) i Hi). lia.
Qed.

Lemma orderings_lexicographic :
  orderings docblocks
  = map (blocks_at docblocks) (index_orderings n (seq 0 n)).
Proof.
  unfold orderings. fold n.
  change (enumerate docblocks n [] [])
    with (enumerate docblocks n [] (blocks_at docblocks [])).
  rewrite enumerate_index_orderings.
  - assert (unchosen n [] = seq 0 n) as ->; [|reflexivity].
    unfold unchosen. apply filter_all, Forall_forall. intros i _.
    unfold chosen_get. now destruct i.
  - apply marks_nil.
  - constructor.
  - intros i [].
  - unfold unchosen. etransitivity; [apply filter_length_le|]. now rewrite length_seq.
Qed.

Lemma orderings_nonempty : orderings docblocks <> [].
Proof.
  intros E. assert (In docblocks (orderings docblocks)) as H
    by (apply orderings_spec; reflexivity).
  rewrite E in H. exact H.
Qed.

End Orderings.

(** ** Scoring candidates: [find_min_1] under [gen_1] *)

Section SearchFacts.

Variable rlines : list string.

Lemma walk_none_not_aborted (fuel : nat) (s : walk_state) :
  walk rlines None fuel s <> Aborted.
Proof.
  functional induction (walk rlines None fuel s); try discriminate; auto.
Qed.

(** Without a best-so-far every candidate is scored to the end. *)
Lemma align_finished (perm : list (list string)) :
  align rlines (List.concat perm)
  = Finished (distance rlines perm) (merged_lines rlines perm).
Proof.
  unfold distance, merged_lines.
  destruct (align rlines (List.concat perm)) eqn:E; [reflexivity| |]; exfalso.
  - now apply walk_none_not_aborted in E.
  - apply walk_terminates in E; [exact E|]. unfold slack, walk_fuel. simpl. lia.
Qed.

(** One call of [find_min_1]: the candidate replaces [min] unless its true
    distance is greater than [min.dist]. *)
Lemma find_min_1_spec (perm : list (list string)) (m : search_state) :
  find_min_1 rlines perm m
  = if exceeds (min_dist m) (distance rlines perm) then m
    else Search (Some (distance rlines perm)) (Some (merged_lines rlines perm))
           (dists m ++ [distance rlines perm]).
Proof.
  unfold find_min_1. pose proof (align_finished perm) as A. unfold align in A.
  destruct (min_dist m) as [b|]; simpl.
  - rewrite (walk_bounded rlines b _ (Walk (List.concat perm) 0 0 0) _ _
               (Nat.le_0_l b) A).
    now destruct (b <? distance rlines perm)%nat.
  - now rewrite A.
Qed.

Lemma score_all_snoc (cands : list (list (list string))) (p : list (list string)) :
  score_all rlines (cands ++ [p]) = find_min_1 rlines p (score_all rlines cands).
Proof. unfold score_all. now rewrite fold_left_app. Qed.

(** After scoring a list of candidates, [min] holds the true result of the
    one that is last among those of least distance. *)
Lemma score_all_last_min (cands : list (list (list string))) :
  cands <> [] ->
  exists before p after,
    cands = before ++ p :: after
    /\ min_dist (score_all rlines cands) = Some (distance rlines p)
    /\ min_data (score_all rlines cands) = Some (merged_lines rlines p)
    /\ (forall q, In q before -> distance rlines p <= distance rlines q)
    /\ (forall q, In q after -> distance rlines p < distance rlines q).
Proof.
  induction cands as [|q cands IH] using rev_ind; [congruence|]. intros _.
  rewrite score_all_snoc, find_min_1_spec.
  assert (cands = [] \/ cands <> []) as [->|NE]
    by (destruct cands; [now left|now right]).
  - exists [], q, []. simpl. repeat split; intros ? [].
  - destruct (IH NE) as (before & p & after & E & Hd & Hm & Hb & Ha).
    rewrite Hd. cbn [exceeds].
    destruct (distance rlines p <? distance rlines q)%nat eqn:C.
    + apply Nat.ltb_lt in C. exists before, p, (after ++ [q]).
      split; [rewrite E, <- app_assoc; reflexivity|].
      do 3 (split; [assumption|]).
      intros x Hx. apply in_app_iff in Hx as [Hx|[<-|[]]]; auto.
    + apply Nat.ltb_ge in C. exists cands, q, [].
      do 3 (split; [reflexivity|]). split; [|intros ? []].
      intros x Hx. rewrite E in Hx.
      apply in_app_iff in Hx as [Hx|[<-|Hx]].
      * specialize (Hb x Hx). lia.
      * exact C.
      * specialize (Ha x Hx). lia.
Qed.

End SearchFacts.

(** The search of [regen_readme] scores the orderings in generation order. *)
Lemma regen_search_score (readme : string) (docblocks : list (list string)) :
  regen_search readme docblocks
  = score_all (split_lines readme) (orderings docblocks).
Proof. unfold regen_search, score_all, orderings. apply gen_1_fold. Qed.

(** The search ends with the result of an ordering that is last among
    those of least true distance. *)
Lemma regen_search_last_min (readme : string) (docblocks : list (list string)) :
  let rlines := split_lines readme in
  exists before P after,
    orderings docblocks = before ++ P :: after
    /\ min_dist (regen_search readme docblocks) = Some (distance rlines P)
    /\ min_data (regen_search readme docblocks) = Some (merged_lines rlines P)
    /\ (forall Q, In Q before -> distance rlines P <= distance rlines Q)
    /\ (forall Q, In Q after -> distance rlines P < distance rlines Q).
Proof.
  intros rlines. rewrite regen_search_score.
  apply score_all_last_min, orderings_nonempty.
Qed.

(* ================================================================== *)
(** * The claims *)

(** ** C3: which ordering wins a tie *)

(** C3 (as the code has it).  The orderings are scored in the lexicographic
    order of the block indices, and the search returns the true result of
    an ordering [P] such that every ordering scored before [P] is at least
    as far from the README as [P] and every ordering scored after [P] is
    strictly farther: among the orderings of least distance the one found
    last is kept. *)
Theorem C3_ties_keep_last_found :
  forall (readme : string) (docblocks : list (list string)),
    orderings docblocks
    = map (blocks_at docblocks)
          (index_orderings (List.length docblocks) (seq 0 (List.length docblocks)))
    /\ exists before P after,
         orderings docblocks = before ++ P :: after
         /\ min_dist (regen_search readme docblocks)
            = Some (distance (split_lines readme) P)
         /\ min_data (regen_search readme docblocks)
            = Some (merged_lines (split_lines readme) P)
         /\ (forall Q, In Q before ->
                distance (split_lines readme) P <= distance (split_lines readme) Q)
         /\ (forall Q, In Q after ->
                distance (split_lines readme) P < distance (split_lines readme) Q).
Proof.
  intros readme docblocks. split.
  - apply orderings_lexicographic.
  - apply regen_search_last_min.
Qed.

(** C3 (as stated) fails.  For the README [x] and the blocks [[a]], [[b]]
    both orderings are at distance 2; the one found first is a, b and the
    search returns b, a. *)
Lemma C3_first_found_tie_is_overwritten :
  orderings [["a"]; ["b"]] = [ [["a"]; ["b"]]; [["b"]; ["a"]] ]
  /\ distance (split_lines "x") [["a"]; ["b"]] = 2
  /\ distance (split_lines "x") [["b"]; ["a"]] = 2
  /\ regen_search "x" [["a"]; ["b"]] = Search (Some 2) (Some ["b"; "a"]) [2; 2].
Proof. repeat split. Qed.

(** The orderings come in the lexicographic order of the block indices. *)
Example orderings_of_three :
  orderings [["0"]; ["1"]; ["2"]]
  = [ [["0"]; ["1"]; ["2"]]; [["0"]; ["2"]; ["1"]];
      [["1"]; ["0"]; ["2"]]; [["1"]; ["2"]; ["0"]];
      [["2"]; ["0"]; ["1"]]; [["2"]; ["1"]; ["0"]] ].
Proof. reflexivity. Qed.

(** ** C6: early abort never changes the winner *)

(** C6.  Let [A] and [B] be orderings with [distance A < distance B].
    The search with early abort ends with the true result of an ordering
    [W] whose distance is at most that of [A], hence less than that of [B];
    and the same holds for whatever list of candidates containing [A] and
    [B] is scored, in whatever order. *)
Theorem C6_pruning_safety :
  forall (readme : string) (docblocks A B : list (list string)),
    let rlines := split_lines readme in
    Permutation docblocks A ->
    Permutation docblocks B ->
    distance rlines A < distance rlines B ->
    (exists W,
        Permutation docblocks W
        /\ min_dist (regen_search readme docblocks) = Some (distance rlines W)
        /\ min_data (regen_search readme docblocks) = Some (merged_lines rlines W)
        /\ distance rlines W <= distance rlines A
        /\ distance rlines W < distance rlines B)
    /\ (forall cands,
           In A cands -> In B cands ->
           exists W,
             In W cands
             /\ min_dist (score_all rlines cands) = Some (distance rlines W)
             /\ min_data (score_all rlines cands) = Some (merged_lines rlines W)
             /\ distance rlines W <= distance rlines A
             /\ distance rlines W < distance rlines B).
Proof.
  intros readme docblocks A B rlines HA HB Hlt.
  assert (Any : forall cands,
             In A cands -> In B cands ->
             exists W,
               In W cands
               /\ min_dist (score_all rlines cands) = Some (distance rlines W)
               /\ min_data (score_all rlines cands) = Some (merged_lines rlines W)
               /\ distance rlines W <= distance rlines A
               /\ distance rlines W < distance rlines B).
  { intros cands IA IB.
    destruct (score_all_last_min rlines cands)
      as (before & W & after & E & Hd & Hm & Hb & Ha).
    { intros ->. exact IA. }
    assert (distance rlines W <= distance rlines A) as HW.
    { rewrite E in IA. apply in_app_iff in IA as [IA|[<-|IA]].
      - now apply Hb.
      - lia.
      - specialize (Ha A IA). lia. }
    exists W. repeat split; auto; try lia.
    rewrite E. apply in_app_iff. right. now left. }
  split; [|exact Any].
  destruct (Any (orderings docblocks)) as (W & IW & Hd & Hm & H1 & H2);
    try (now apply orderings_spec).
  exists W. rewrite regen_search_score. fold rlines.
  repeat split; auto. now apply orderings_spec.
Qed.

Lemma C6_pruning_safety_witness :
  let readme := unlines ["a"; "b"] in
  let rlines := split_lines readme in
  let docblocks := [["a"]; ["b"]] in
  let B := [["b"]; ["a"]] in
  exists W,
    Permutation docblocks W
    /\ min_dist (regen_search readme docblocks) = Some (distance rlines W)
    /\ min_data (regen_search readme docblocks) = Some (merged_lines rlines W)
    /\ distance rlines W <= distance rlines docblocks
    /\ distance rlines W < distance rlines B.
Proof.
  apply (C6_pruning_safety (unlines ["a"; "b"]) [["a"]; ["b"]]
           [["a"]; ["b"]] [["b"]; ["a"]]).
  - apply Permutation_refl.
  - apply perm_swap.
  - vm_compute. lia.
Defined.

(** ** C5: the mismatch branch *)

Section Lookahead.

Variable rlines : list string.
Variable s : walk_state.
Variables ld lr : string.

Lemma lookahead_first (i : nat) :
  1 <= i <= maxLookAhead - 1 ->
  no_hit_before rlines s ld lr 1 i ->
  ref_hit rlines s ld i = true \/ data_hit s lr i = true ->
  lookahead rlines s ld lr (maxLookAhead - 1) 1
  = if ref_hit rlines s ld i then HitRef i else HitData i.
Proof.
  intros Hi Hbefore Hhit.
  pose proof (lookahead_spec rlines s ld lr (maxLookAhead - 1) 1) as H.
  assert (Huniq : forall j, 1 <= j < 1 + (maxLookAhead - 1) ->
                            ref_hit rlines s ld j = true \/ data_hit s lr j = true ->
                            no_hit_before rlines s ld lr 1 j -> j = i).
  { intros j Hj Hjhit Hjbefore.
    destruct (Nat.lt_trichotomy j i) as [Hlt|[->|Hgt]]; [|reflexivity|]; exfalso.
    - destruct (Hbefore j) as [R D]; [lia|]. rewrite R, D in Hjhit.
      destruct Hjhit; discriminate.
    - destruct (Hjbefore i) as [R D]; [lia|]. rewrite R, D in Hhit.
      destruct Hhit; discriminate. }
  destruct (lookahead rlines s ld lr (maxLookAhead - 1) 1) as [j|j|].
  - destruct H as (Hj & R & B). rewrite <- (Huniq j Hj (or_introl R) B). now rewrite R.
  - destruct H as (Hj & R & D & B). rewrite <- (Huniq j Hj (or_intror D) B).
    now rewrite R.
  - exfalso. destruct (H i) as [R D]; [unfold maxLookAhead in *; lia|]. rewrite R, D in Hhit.
    destruct Hhit; discriminate.
Qed.

Lemma lookahead_miss :
  no_hit_before rlines s ld lr 1 maxLookAhead ->
  lookahead rlines s ld lr (maxLookAhead - 1) 1 = Miss.
Proof.
  intros Hnone.
  pose proof (lookahead_spec rlines s ld lr (maxLookAhead - 1) 1) as H.
  destruct (lookahead rlines s ld lr (maxLookAhead - 1) 1) as [j|j|];
    [exfalso|exfalso|reflexivity].
  - destruct H as (Hj & R & _). destruct (Hnone j) as [R' _]; [unfold maxLookAhead in *; lia|].
    congruence.
  - destruct H as (Hj & _ & D & _). destruct (Hnone j) as [_ D']; [unfold maxLookAhead in *; lia|].
    congruence.
Qed.

End Lookahead.

(** C5.  In the mismatch branch (both current lines are ordinary text and
    differ) the loop goes on from [mismatch s] unless the new distance
    exceeds the best so far.  If [i], between 1 and 6, is the first offset
    at which the current data line shows up in the README or the current
    README line shows up in the data, the distance grows by [i] and the
    cursor of the side where it showed up moves by [i]; if there is no
    such offset below 7 the distance grows by 2; in each case both cursors
    move one step more. *)
Theorem C5_mismatch_branch :
  forall (rlines : list string) (best : option nat) (fuel : nat) (s : walk_state),
    let ld := nth (nd s) (data s) "" in
    let lr := nth (nr s) rlines "" in
    nd s < List.length (data s) ->
    nr s < List.length rlines ->
    ld <> lr ->
    ordinary ld = true ->
    ordinary lr = true ->
    walk rlines best (S fuel) s
    = (if exceeds best (dist (mismatch rlines s)) then Aborted
       else walk rlines best fuel (mismatch rlines s))
    /\ (forall i,
           1 <= i <= 6 ->
           no_hit_before rlines s ld lr 1 i ->
           (ref_hit rlines s ld i = true ->
            mismatch rlines s
            = Walk (data s) (nd s + 1) (nr s + i + 1) (dist s + i))
           /\ (ref_hit rlines s ld i = false ->
               data_hit s lr i = true ->
               mismatch rlines s
               = Walk (data s) (nd s + i + 1) (nr s + 1) (dist s + i)))
    /\ (no_hit_before rlines s ld lr 1 7 ->
        mismatch rlines s = Walk (data s) (nd s + 1) (nr s + 1) (dist s + 2)).
Proof.
  intros rlines best fuel s ld lr Hd Hr Hne Old Olr. split; [|split].
  - rewrite walk_equation.
    apply Nat.ltb_lt in Hd, Hr. rewrite Hd, Hr. simpl andb. cbv iota.
    fold ld. fold lr.
    apply String.eqb_neq in Hne. rewrite Hne.
    unfold ordinary in Old, Olr. apply negb_true_iff in Old, Olr.
    now rewrite Old, Olr.
  - intros i Hi Hbefore. split.
    + intros R. unfold mismatch. fold ld. fold lr.
      rewrite (lookahead_first rlines s ld lr i), R; auto.
    + intros R D. unfold mismatch. fold ld. fold lr.
      rewrite (lookahead_first rlines s ld lr i), R; auto.
  - intros Hnone. unfold mismatch. fold ld. fold lr.
    now rewrite lookahead_miss.
Qed.

Lemma C5_mismatch_branch_witness :
  let rlines := ["x"; "q"; "a"] in
  let s := Walk ["a"; "b"] 0 0 0 in
  mismatch rlines s = Walk ["a"; "b"] 1 3 2
  /\ walk rlines (Some 1) 1 s = Aborted.
Proof.
  intros rlines s.
  assert (Hne : nth (nd s) (data s) "" <> nth (nr s) rlines "") by discriminate.
  destruct (C5_mismatch_branch rlines (Some 1) 0 s
              ltac:(simpl; lia) ltac:(simpl; lia) Hne eq_refl eq_refl)
    as (Hwalk & Hfirst & _).
  assert (Hhit : mismatch rlines s = Walk ["a"; "b"] 1 3 2).
  { apply (Hfirst 2); [lia| |reflexivity].
    intros j Hj. assert (j = 1) as -> by lia. split; reflexivity. }
  split; [exact Hhit|]. rewrite Hwalk, Hhit. reflexivity.
Defined.

(** ** C2: no prior document *)

(** C2 (as the code has it).  When there is no README file, [main] does
    not call [regen_readme]: it saves [asDiff(docblocks)], whose parts are
    the lines of the blocks in extraction order, each followed by a
    newline and each classified fresh; the text written is those lines
    joined by newlines and trimmed.  For the blocks [[a, a]], [[b]] it is
    the three lines a, a, b. *)
Theorem C2_absent_document_blocks_in_extraction_order :
  forall (diffLines : string -> string -> list part)
         (b : list string) (bs : list (list string)),
    main diffLines None (b :: bs) = Some (saveReadme (asDiff (b :: bs)))
    /\ Forall (fun p => classify p = Fresh) (asDiff (b :: bs))
    /\ map value (asDiff (b :: bs))
       = map (fun l => (l ++ nl)%string) (List.concat (b :: bs))
    /\ main diffLines None (b :: bs) = Some (trim (join nl (List.concat (b :: bs))))
    /\ main diffLines None [["a"; "a"]; ["b"]] = Some (unlines ["a"; "a"; "b"])
    /\ map classify (asDiff [["a"; "a"]; ["b"]]) = [Fresh; Fresh; Fresh].
Proof.
  intros diffLines b bs. split; [reflexivity|]. split; [apply asDiff_fresh|].
  split; [now rewrite asDiff_flat, map_map|]. split; [|split; reflexivity].
  unfold main. simpl readsafely. cbv iota.
  now rewrite saveReadme_asDiff, trim_terminated.
Qed.

(** C2 (as stated) fails for a README that exists and is empty: [readme] is
    then the empty string, not [null], so [regen_readme] runs, both
    orderings of the blocks [[a]], [[b]] are scored (at distance 0), and
    the text written is b, a. *)
Lemma C2_empty_document_is_searched :
  readsafely (Some "") = Some ""
  /\ regen_search "" [["a"]; ["b"]] = Search (Some 0) (Some [""; "b"; "a"]) [0; 0]
  /\ (forall diffLines, lawful_diff diffLines ->
        main diffLines (Some "") [["a"]; ["b"]] = Some (unlines ["b"; "a"]))
  /\ main whole_diff (Some "") [["a"]; ["b"]] = Some (unlines ["b"; "a"])
  /\ (unlines ["b"; "a"] =? unlines ["a"; "b"])%string = false.
Proof.
  split; [reflexivity|]. split; [reflexivity|]. split; [|split; reflexivity].
  intros diffLines lawful. unfold main. simpl readsafely. cbv iota.
  now rewrite regen_readme_data.
Qed.

(** ** C1: no block line is lost before the final trimming *)

Lemma subseq_concat_in (blk : list string) (blocks : list (list string)) :
  In blk blocks -> subseq blk (List.concat blocks).
Proof.
  induction blocks as [|x blocks IH]; intros H; [contradiction|]. simpl.
  destruct H as [->|H].
  - apply subseq_app_r.
  - eapply subseq_trans; [apply IH, H|apply subseq_app_l].
Qed.

(** The merged sequence of an ordering holds its flattened blocks. *)
Lemma merged_lines_subseq (rlines : list string) (P : list (list string)) :
  subseq (List.concat P) (merged_lines rlines P).
Proof.
  pose proof (align_finished rlines P) as A. unfold align in A.
  apply walk_subseq in A. exact A.
Qed.

(** C1 (as the code has it).  Whatever the README file, the text written
    is a merged line sequence joined by newlines and trimmed, where the
    merged sequence contains the flattened blocks of an ordering of the
    blocks, and so every line of every block in its order within the
    block.  (What the final trimming removes at the two ends of the text
    is not part of the statement.) *)
Theorem C1_block_lines_kept_in_merged_sequence :
  forall diffLines : string -> string -> list part,
    lawful_diff diffLines ->
    forall (file : option string) (b : list string) (bs : list (list string)),
    exists merged P,
      main diffLines file (b :: bs) = Some (trim (join nl merged))
      /\ Permutation (b :: bs) P
      /\ subseq (List.concat P) merged
      /\ (forall blk, In blk (b :: bs) -> subseq blk merged).
Proof.
  intros diffLines lawful file b bs.
  assert (Hblk : forall merged P,
             Permutation (b :: bs) P -> subseq (List.concat P) merged ->
             forall blk, In blk (b :: bs) -> subseq blk merged).
  { intros merged P HP Hsub blk Hin.
    eapply subseq_trans; [|exact Hsub].
    apply subseq_concat_in. eapply Permutation_in; eauto. }
  destruct file as [content|].
  - unfold main. simpl readsafely. cbv iota.
    rewrite regen_readme_data by exact lawful.
    destruct (regen_search_last_min (trim content) (b :: bs))
      as (before & P & after & E & _ & Hm & _).
    rewrite Hm.
    assert (Permutation (b :: bs) P) as HP.
    { apply orderings_spec. rewrite E. apply in_app_iff. right. now left. }
    exists (merged_lines (split_lines (trim content)) P), P.
    pose proof (merged_lines_subseq (split_lines (trim content)) P).
    repeat split; eauto.
  - exists (List.concat (b :: bs)), (b :: bs).
    unfold main. simpl readsafely. cbv iota.
    rewrite saveReadme_asDiff, trim_terminated.
    repeat split; eauto using subseq_refl.
Qed.

Lemma C1_block_lines_kept_in_merged_sequence_witness :
  lawful_diff whole_diff
  /\ exists merged P,
      main whole_diff (Some (unlines ["intro"; "![x](y.png)"; "outro"]))
           [["intro"]; ["outro"]]
      = Some (trim (join nl merged))
      /\ Permutation [["intro"]; ["outro"]] P
      /\ subseq (List.concat P) merged
      /\ (forall blk, In blk [["intro"]; ["outro"]] -> subseq blk merged).
Proof.
  split; [exact whole_diff_lawful|].
  exact (C1_block_lines_kept_in_merged_sequence whole_diff whole_diff_lawful
           (Some (unlines ["intro"; "![x](y.png)"; "outro"])) ["intro"] [["outro"]]).
Defined.

(** C1 (as stated) fails.  The source lines [//**] and [//** a] give the
    block [["", "a"]]; with the README [a], and also with none, the text
    written is the single line [a]: the empty line of the block is gone. *)
Lemma C1_leading_blank_line_is_trimmed_away :
  xtract_1 (unlines ["//**"; "//** a"]) [] = [[""; "a"]]
  /\ (forall diffLines, lawful_diff diffLines ->
        main diffLines (Some "a") [[""; "a"]] = Some "a")
  /\ main whole_diff (Some "a") [[""; "a"]] = Some "a"
  /\ main whole_diff None [[""; "a"]] = Some "a"
  /\ split_lines "a" = ["a"]
  /\ subseqb [""; "a"] (split_lines "a") = false.
Proof.
  split; [reflexivity|]. split; [|repeat split].
  intros diffLines lawful. unfold main. simpl readsafely. cbv iota.
  now rewrite regen_readme_data.
Qed.

(** ** C4: structural lines of the README *)

(** C4 at a failing input.  With the README lines intro, then an image, and
    the single block [[intro]], the loop of [find_min_1] is left as soon as
    the data is used up; the image line, still ahead in the README, is
    never inserted, and the text written is the line intro alone.  (When
    the image stands between two block lines it is kept.) *)
Theorem C4_trailing_structural_line_is_dropped :
  isSplLine "![x](y.png)" = true
  /\ regen_search (unlines ["intro"; "![x](y.png)"]) [["intro"]]
     = Search (Some 0) (Some ["intro"]) [0]
  /\ (forall diffLines, lawful_diff diffLines ->
        main diffLines (Some (unlines ["intro"; "![x](y.png)"])) [["intro"]]
        = Some "intro")
  /\ regen_data (unlines ["intro"; "![x](y.png)"; "outro"]) [["intro"]; ["outro"]]
     = Some (unlines ["intro"; "![x](y.png)"; "outro"]).
Proof.
  split; [reflexivity|]. split; [reflexivity|]. split; [|reflexivity].
  intros diffLines lawful. unfold main. simpl readsafely. cbv iota.
  now rewrite regen_readme_data.
Qed.

(** ** C7: a README that already is an ordering of the blocks *)

Lemma join_split_lines (s : string) : no_cr s = true -> join nl (split_lines s) = s.
Proof.
  unfold join. induction s as [|c s IH]; simpl; [reflexivity|].
  intros H. apply andb_prop in H as [Hc Hs]. specialize (IH Hs).
  destruct (split_lines s) as [|l ls] eqn:E.
  { destruct s; simpl in E; [discriminate|].
    destruct (is_line_terminator a); [discriminate|].
    destruct (split_lines s); discriminate. }
  destruct (is_line_terminator c) eqn:T.
  - assert (c = LF) as ->.
    { unfold is_line_terminator, one_of in T. simpl in T.
      rewrite orb_false_r in T. apply orb_prop in T as [T|T].
      - now apply Ascii.eqb_eq in T.
      - rewrite T in Hc. discriminate. }
    rewrite <- IH. reflexivity.
  - rewrite <- IH. destruct ls; reflexivity.
Qed.

Lemma Permutation_concat (l l' : list (list string)) :
  Permutation l l' -> Permutation (List.concat l) (List.concat l').
Proof.
  induction 1; simpl.
  - constructor.
  - now apply Permutation_app_head.
  - rewrite !app_assoc. apply Permutation_app_tail, Permutation_app_comm.
  - etransitivity; eauto.
Qed.

Lemma firstn_snoc_nth (l : list string) (i : nat) :
  i < List.length l -> firstn (i + 1) l = firstn i l ++ [nth i l ""].
Proof.
  revert i. induction l as [|x l IH]; intros i Hi; simpl in Hi; [lia|].
  destruct i as [|i]; simpl; [reflexivity|]. rewrite IH by lia. reflexivity.
Qed.

Section Stability.

Variable rlines : list string.

(** Aligning the README with itself: every round is a match. *)
Lemma walk_identical (best : option nat) (fuel : nat) (s : walk_state) :
  data s = rlines -> nd s = nr s -> slack rlines s <= fuel ->
  walk rlines best fuel s = Finished (dist s) rlines.
Proof.
  functional induction (walk rlines best fuel s); intros Hd Hn Hf;
    try (apply in_range in e as [Hrd Hrr]; unfold slack in *; simpl in *);
    try (rewrite Hd, Hn, String.eqb_refl in e1; discriminate).
  - lia.
  - rewrite IHo; simpl; auto; unfold slack; simpl; lia.
  - now rewrite Hd.
Qed.

(** Ordinary text on both sides and no cost: every round was a match. *)
Lemma walk_ordinary_zero (fuel : nat) (s : walk_state) (d : nat) (m : list string) :
  walk rlines None fuel s = Finished d m ->
  d = dist s ->
  Forall (fun l => ordinary l = true) (data s) ->
  Forall (fun l => ordinary l = true) rlines ->
  nd s = nr s ->
  firstn (nd s) (data s) = firstn (nr s) rlines ->
  m = data s /\ (List.length (data s) = List.length rlines -> data s = rlines).
Proof.
  functional induction (walk rlines None fuel s); intros H Hd Od Or Hn Hpre;
    try discriminate;
    try (pose proof (in_range rlines _ e) as [Hrd Hrr]).
  - apply IHo0; simpl; auto; try lia.
    rewrite !firstn_snoc_nth by assumption.
    apply String.eqb_eq in e1. now rewrite Hpre, e1.
  - exfalso. rewrite Forall_forall in Od.
    specialize (Od _ (nth_In _ "" Hrd)). unfold ordinary in Od.
    rewrite e2 in Od. discriminate.
  - exfalso. rewrite Forall_forall in Or.
    specialize (Or _ (nth_In _ "" Hrr)). unfold ordinary in Or.
    rewrite e3 in Or. discriminate.
  - exfalso. apply walk_dist_mono in H.
    destruct (mismatch_moves rlines s) as (_ & _ & _ & Hlt). lia.
  - injection H as _ <-. split; [reflexivity|]. intros HL.
    assert (List.length (data s) <= nd s) as Hend.
    { apply andb_false_iff in e as [e|e]; apply Nat.ltb_ge in e; lia. }
    rewrite firstn_all2 in Hpre by exact Hend.
    rewrite firstn_all2 in Hpre by lia. exact Hpre.
Qed.

Lemma distance_identical (P : list (list string)) :
  rlines = List.concat P ->
  distance rlines P = 0 /\ merged_lines rlines P = rlines.
Proof.
  intros E. unfold distance, merged_lines, align.
  rewrite (walk_identical None _ (Walk (List.concat P) 0 0 0)); simpl; auto.
  unfold slack, walk_fuel. simpl. lia.
Qed.

Lemma distance_zero_ordinary (Q : list (list string)) :
  Forall (fun l => ordinary l = true) (List.concat Q) ->
  Forall (fun l => ordinary l = true) rlines ->
  List.length (List.concat Q) = List.length rlines ->
  distance rlines Q = 0 ->
  merged_lines rlines Q = rlines.
Proof.
  intros OQ Or HL HD. pose proof (align_finished rlines Q) as A.
  unfold align in A. rewrite HD in A.
  apply walk_ordinary_zero in A; simpl; auto.
  destruct A as [-> A]. now apply A.
Qed.

End Stability.




(** ** The regular expressions *)

Lemma truthy_or_else {A} (x y : option A) :
  truthy (or_else x y) = truthy x || truthy y.
Proof. now destruct x, y. Qed.

Lemma truthy_grab (a : atom) (c : ascii) (r : option string) :
  truthy (grab a c r) = truthy r.
Proof. unfold grab. now destruct (cap a), r. Qed.

Lemma truthy_eat (a : atom) (k : string -> option string) (s : string) :
  truthy (eat a k s) = true
  <-> exists c s', s = String c s' /\ cls a c = true /\ truthy (k s') = true.
Proof.
  destruct s as [|c s]; simpl.
  - split; [discriminate|]. intros (c & s' & E & _). discriminate.
  - destruct (cls a c) eqn:C; [rewrite truthy_grab|]; split.
    + intros H. now exists c, s.
    + intros (c' & s' & E & _ & H). now injection E as <- <-.
    + discriminate.
    + intros (c' & s' & E & C' & _). injection E as <- <-. congruence.
Qed.

Lemma star_unfold (a : atom) (k : string -> option string) (s : string) :
  star a k s = or_else (eat a (star a k) s) (k s).
Proof. destruct s; reflexivity. Qed.

Lemma truthy_star (a : atom) (k : string -> option string) (s : string) :
  truthy (star a k s) = true
  <-> exists u v, s = (u ++ v)%string /\ all_chars (cls a) u = true
                  /\ truthy (k v) = true.
Proof.
  induction s as [|c s IH];
    rewrite star_unfold, truthy_or_else, orb_true_iff, truthy_eat.
  - split.
    + intros [(c & s' & E & _)|H]; [discriminate|]. now exists "", "".
    + intros (u & v & E & _ & H). destruct u; [|discriminate].
      simpl in E. subst v. now right.
  - split.
    + intros [(c' & s' & E & C & H)|H].
      * injection E as <- <-. apply IH in H as (u & v & -> & Hu & Hv).
        exists (String c u), v. simpl. now rewrite C, Hu.
      * now exists "", (String c s).
    + intros (u & v & E & Hu & Hv). destruct u as [|c' u]; simpl in E.
      * subst v. now right.
      * injection E as <- ->. simpl in Hu. apply andb_prop in Hu as [C Hu].
        left. exists c, (u ++ v)%string. repeat split; auto.
        apply IH. now exists u, v.
Qed.

(** The backtracking matcher accepts exactly the strings of [lang]. *)
Lemma match_atoms_lang (dollar : bool) (p : list atom) :
  forall s, truthy (match_atoms dollar p s) = true <-> lang dollar p s.
Proof.
  induction p as [|a p IH]; intros s; simpl.
  - destruct dollar, s; simpl; split; intros H; try reflexivity; try discriminate;
      exact I.
  - destruct (rep a).
    + rewrite truthy_eat. split; intros (c & s' & E & C & H); exists c, s';
        repeat split; auto; now apply IH.
    + rewrite truthy_or_else, orb_true_iff, truthy_eat, IH.
      split; (intros [(c & s' & E & C & H)|H]; [left|now right]);
        exists c, s'; repeat split; auto; now apply IH.
    + rewrite truthy_star. split; intros (u & v & E & C & H); exists u, v;
        repeat split; auto; now apply IH.
Qed.

Lemma search_lang (dollar : bool) (p : list atom) (s : string) :
  truthy (search dollar p s) = true
  <-> exists pre t, s = (pre ++ t)%string /\ lang dollar p t.
Proof.
  induction s as [|c s IH]; simpl.
  - destruct (match_atoms dollar p "") eqn:M; simpl; split.
    + intros _. exists "", "". split; [reflexivity|].
      apply match_atoms_lang. now rewrite M.
    + reflexivity.
    + discriminate.
    + intros (pre & t & E & H). destruct pre; [|discriminate]. simpl in E. subst t.
      apply match_atoms_lang in H. now rewrite M in H.
  - destruct (match_atoms dollar p (String c s)) eqn:M; simpl; split.
    + intros _. exists "", (String c s). split; [reflexivity|].
      apply match_atoms_lang. now rewrite M.
    + reflexivity.
    + intros H. apply IH in H as (pre & t & -> & H). now exists (String c pre), t.
    + intros (pre & t & E & H). destruct pre as [|c' pre]; simpl in E.
      * subst t. apply match_atoms_lang in H. now rewrite M in H.
      * injection E as <- ->. apply IH. now exists pre, t.
Qed.

Lemma one_of_single (x c : ascii) : one_of [x] c = true <-> c = x.
Proof.
  unfold one_of. simpl. rewrite orb_false_r. apply Ascii.eqb_eq.
Qed.

Lemma image_line_lang (l : string) : lang true (atoms re_image) l <-> image_line l.
Proof.
  unfold image_line. cbn -[Ascii.eqb one_of dot append]. split.
  - intros (w & v & -> & Hw & c1 & v1 & -> & C1 & c2 & v2 & -> & C2
            & alt & v3 & -> & Halt & c3 & v4 & -> & C3 & c4 & v5 & -> & C4
            & url & v6 & -> & Hurl & c5 & v7 & -> & C5
            & w' & v8 & -> & Hw' & ->).
    apply one_of_single in C1. apply Ascii.eqb_eq in C2, C3, C4, C5. subst.
    exists w, alt, url, w'. rewrite append_nil_r. repeat split; auto.
  - intros (w & alt & url & w' & -> & Hw & Halt & Hurl & Hw').
    exists w, ("![" ++ alt ++ "](" ++ url ++ ")" ++ w')%string.
    repeat split; auto.
    exists "!"%char, ("[" ++ alt ++ "](" ++ url ++ ")" ++ w')%string.
    repeat split.
    exists "["%char, (alt ++ "](" ++ url ++ ")" ++ w')%string. repeat split.
    exists alt, ("](" ++ url ++ ")" ++ w')%string. repeat split; auto.
    exists "]"%char, ("(" ++ url ++ ")" ++ w')%string. repeat split.
    exists "("%char, (url ++ ")" ++ w')%string. repeat split.
    exists url, (")" ++ w')%string. repeat split; auto.
    exists ")"%char, w'. repeat split.
    exists w', "". rewrite append_nil_r. repeat split; auto.
Qed.

Lemma tag_line_lang (l : string) : lang true (atoms re_tag) l <-> tag_line l.
Proof.
  unfold tag_line. cbn -[Ascii.eqb one_of dot append]. split.
  - intros (w & v & -> & Hw & c1 & v1 & -> & C1
            & body & v2 & -> & Hbody & c2 & v3 & -> & C2
            & w' & v4 & -> & Hw' & ->).
    apply Ascii.eqb_eq in C1, C2. subst.
    exists w, body, w'. rewrite append_nil_r. repeat split; auto.
  - intros (w & body & w' & -> & Hw & Hbody & Hw').
    exists w, ("<" ++ body ++ ">" ++ w')%string. repeat split; auto.
    exists "<"%char, (body ++ ">" ++ w')%string. repeat split.
    exists body, (">" ++ w')%string. repeat split; auto.
    exists ">"%char, w'. repeat split.
    exists w', "". rewrite append_nil_r. repeat split; auto.
Qed.

(** ** C8: what [isSplLine] accepts *)

(** C8 (as the code has it).  [isSplLine] is true exactly for a line made
    of blanks, [![], any text, [](], a text without closing parenthesis,
    [)] and blanks or newlines, and for a line made of blanks, a text that
    starts with [<] and ends with [>], and blanks or newlines; the text
    between [<] and [>] is arbitrary, so it need not be one tag. *)
Theorem C8_isSplLine_shapes :
  forall l : string, isSplLine l = true <-> (image_line l \/ tag_line l).
Proof.
  intros l. unfold isSplLine, re_match. simpl bol. cbv iota.
  rewrite orb_true_iff, !match_atoms_lang, image_line_lang, tag_line_lang.
  reflexivity.
Qed.

(** C8 (as stated) fails.  A line with two tags and text between them, and
    a line with two image references and text between them, are no single
    tag and no single image reference, yet [isSplLine] accepts both. *)
Lemma C8_several_tags_count_as_structural :
  isSplLine "<b>bold</b> and <i>more</i>" = true
  /\ spec_isSplLine "<b>bold</b> and <i>more</i>" = false
  /\ isSplLine "![a](b) text ![c](d)" = true
  /\ spec_isSplLine "![a](b) text ![c](d)" = false
  /\ spec_isSplLine "<img src=a>" = true
  /\ spec_isSplLine "  ![x](y.png) " = true.
Proof. repeat split. Qed.

(** ** C10: documentation lines *)

Lemma eat_plain (f : ascii -> bool) (k : string -> option string)
  (s : string) (r : option string) :
  eat (Atom f Once false) k s = r
  <-> match s with
      | String c s' => if f c then k s' = r else None = r
      | "" => None = r
      end.
Proof. destruct s as [|c s]; simpl; [reflexivity|]. now destruct (f c). Qed.

Lemma eat_cons (f : ascii -> bool) (k : string -> option string)
  (c : ascii) (s : string) :
  eat (Atom f Once false) k (String c s) = if f c then k s else None.
Proof. simpl. now destruct (f c). Qed.

Lemma star_dot_capture (s : string) :
  star (Atom dot Star true) (fun _ => Some "") s = Some (dot_prefix s).
Proof.
  induction s as [|c s IH]; simpl; [reflexivity|].
  destruct (dot c); simpl; [now rewrite IH|reflexivity].
Qed.

(** The second expression matches at the start of [t] exactly when [t]
    starts with a marker and a blank; its group is the rest of the line. *)
Lemma marker_text_here (t : string) (g : string) :
  match_atoms false (atoms re_marker_text) t = Some g
  <-> exists m rest,
        marker m /\ t = (m ++ " " ++ rest)%string /\ g = dot_prefix rest.
Proof.
  cbn -[Ascii.eqb one_of dot append star eat].
  split.
  - intros H.
    apply eat_plain in H. destruct t as [|c1 t]; [discriminate|].
    destruct (one_of ["/"%char; "#"%char] c1) eqn:C1; [|discriminate].
    apply eat_plain in H. destruct t as [|c2 t]; [discriminate|].
    destruct (one_of ["/"%char; "#"%char] c2) eqn:C2; [|discriminate].
    apply eat_plain in H. destruct t as [|c3 t]; [discriminate|].
    destruct (Ascii.eqb_spec "*" c3) as [<-|]; [|discriminate].
    apply eat_plain in H. destruct t as [|c4 t]; [discriminate|].
    destruct (Ascii.eqb_spec "*" c4) as [<-|]; [|discriminate].
    apply eat_plain in H. destruct t as [|c5 t]; [discriminate|].
    destruct (Ascii.eqb_spec SP c5) as [<-|]; [|discriminate].
    rewrite star_dot_capture in H. injection H as <-.
    exists (String c1 (String c2 "**")), t. repeat split.
    now exists c1, c2.
  - intros (m & rest & (c1 & c2 & C1 & C2 & ->) & -> & ->).
    unfold comment_char in C1, C2. simpl append. unfold any_of, chr.
    rewrite !eat_cons, C1, C2, !Ascii.eqb_refl. apply star_dot_capture.
Qed.

Lemma marker_only_lang (t : string) :
  lang true (atoms re_marker_only) t
  <-> exists m, marker m /\ (t = m \/ t = (m ++ " ")%string).
Proof.
  cbn -[Ascii.eqb one_of append]. split.
  - intros (c1 & t1 & -> & C1 & c2 & t2 & -> & C2 & c3 & t3 & -> & C3
            & c4 & t4 & -> & C4 & H).
    apply Ascii.eqb_eq in C3, C4. subst c3 c4.
    exists (String c1 (String c2 "**")). split; [now exists c1, c2|].
    destruct H as [(c5 & t5 & -> & C5 & ->)| ->]; [right|left]; [|reflexivity].
    apply Ascii.eqb_eq in C5. now subst c5.
  - intros (m & (c1 & c2 & C1 & C2 & ->) & [->| ->]);
      do 4 (eexists; eexists; split; [simpl; reflexivity|];
            split; [first [exact C1|exact C2|reflexivity]|]).
    + now right.
    + left. exists SP, "". repeat split.
Qed.

Lemma ends_in_marker_iff (l : string) :
  truthy (re_match re_marker_only l) = true <-> ends_in_marker l.
Proof.
  unfold re_match, ends_in_marker. simpl bol. cbv iota. rewrite search_lang. split.
  - intros (pre & t & -> & H). apply marker_only_lang in H as (m & Hm & [->| ->]);
      exists pre, m; auto.
  - intros (pre & m & Hm & [->| ->]).
    + exists pre, m. split; [reflexivity|]. apply marker_only_lang. eauto.
    + exists pre, (m ++ " ")%string. split; [reflexivity|].
      apply marker_only_lang. eauto.
Qed.

(** A search returns the match at the first position that has one. *)
Lemma search_first (dollar : bool) (p : list atom) (s : string) (g : string) :
  search dollar p s = Some g
  <-> exists pre t,
        s = (pre ++ t)%string
        /\ match_atoms dollar p t = Some g
        /\ (forall pre' t', s = (pre' ++ t')%string ->
                            String.length pre' < String.length pre ->
                            match_atoms dollar p t' = None).
Proof.
  induction s as [|c s IH]; simpl.
  - destruct (match_atoms dollar p "") eqn:M; split.
    + intros H. injection H as <-. exists "", "". repeat split; auto.
      intros pre' t' _ Hlt. simpl in Hlt. lia.
    + intros (pre & t & E & H & _). destruct pre; [|discriminate].
      simpl in E. subst t. congruence.
    + discriminate.
    + intros (pre & t & E & H & _). destruct pre; [|discriminate].
      simpl in E. subst t. congruence.
  - destruct (match_atoms dollar p (String c s)) eqn:M; split.
    + intros H. injection H as <-. exists "", (String c s). repeat split; auto.
      intros pre' t' _ Hlt. simpl in Hlt. lia.
    + intros (pre & t & E & H & Hmin). destruct pre as [|c' pre]; simpl in E.
      * subst t. congruence.
      * rewrite (Hmin "" (String c s)) in M; [discriminate|reflexivity|simpl; lia].
    + intros H. apply IH in H as (pre & t & -> & H & Hmin).
      exists (String c pre), t. repeat split; auto.
      intros pre' t' E Hlt. destruct pre' as [|c' pre']; simpl in E.
      * now subst t'.
      * injection E as <- E. apply (Hmin pre' t' E). simpl in Hlt. lia.
    + intros (pre & t & E & H & Hmin). destruct pre as [|c' pre]; simpl in E.
      * subst t. congruence.
      * injection E as <- ->. apply IH. exists pre, t. repeat split; auto.
        intros pre' t' E Hlt. apply (Hmin (String c pre') t').
        -- simpl. now rewrite E.
        -- simpl. lia.
Qed.

Lemma dot_prefix_all (s : string) : all_chars dot s = true -> dot_prefix s = s.
Proof.
  induction s as [|c s IH]; simpl; [reflexivity|]. intros H.
  apply andb_prop in H as [C H]. now rewrite C, IH.
Qed.





(** ** Examples *)

Example isSplLine_image : isSplLine "  ![x](y.png) " = true.
Proof. reflexivity. Qed.

Example isSplLine_tag : isSplLine "<img src=a>" = true.
Proof. reflexivity. Qed.

Example isSplLine_text : isSplLine "intro <b>x</b> outro" = false.
Proof. reflexivity. Qed.

Example xtract_plain : xtract_doc_comment_1 "//** # Title" = Some "# Title".
Proof. reflexivity. Qed.

Example xtract_not_marked : xtract_doc_comment_1 "//**no blank" = None.
Proof. reflexivity. Qed.

Example xtract_last_marker_wins :
  xtract_doc_comment_1 "//** text //**" = Some "".
Proof. reflexivity. Qed.

Example xtract_1_blocks :
  xtract_1 (unlines ["//** a"; "//**"; "code"; "  ##** b"; "/#** c"]) []
  = [["a"; ""]; ["b"; "c"]].
Proof. reflexivity. Qed.

Example structural_line_between_blocks_is_kept :
  regen_search (unlines ["intro"; "![x](y.png)"; "outro"]) [["intro"]; ["outro"]]
  = Search (Some 0) (Some ["intro"; "![x](y.png)"; "outro"]) [0].
Proof. reflexivity. Qed.

(* ================================================================== *)
(** * Further properties of the program *)

(** ** [xtract_doc_comment_1] *)

Lemma all_chars_app (f : ascii -> bool) (a b : string) :
  all_chars f (a ++ b) = all_chars f a && all_chars f b.
Proof. induction a as [|c a IH]; simpl; [reflexivity|]. now rewrite IH, andb_assoc. Qed.

Lemma dot_prefix_dot (s : string) : all_chars dot (dot_prefix s) = true.
Proof.
  induction s as [|c s IH]; simpl; [reflexivity|].
  destruct (dot c) eqn:C; simpl; [now rewrite C|reflexivity].
Qed.

Lemma marker_at_found (l : string) (k : nat) :
  marker_at l k -> truthy (re_match re_marker_text l) = true.
Proof.
  intros (pre & m & rest & Hm & -> & _). unfold re_match. simpl bol. cbv iota.
  apply search_lang. exists pre, (m ++ " " ++ rest)%string. split; [reflexivity|].
  apply match_atoms_lang. simpl eol.
  assert (match_atoms false (atoms re_marker_text) (m ++ " " ++ rest)
          = Some (dot_prefix rest)) as ->; [|reflexivity].
  apply marker_text_here. now exists m, rest.
Qed.

Lemma found_marker_at (l g : string) :
  re_match re_marker_text l = Some g ->
  exists pre m rest,
    marker m /\ l = (pre ++ m ++ " " ++ rest)%string /\ g = dot_prefix rest.
Proof.
  unfold re_match. simpl bol. cbv iota. intros H.
  apply search_first in H as (pre & t & -> & H & _).
  apply marker_text_here in H as (m & rest & Hm & -> & ->).
  now exists pre, m, rest.
Qed.

(** X1.  A line is not a documentation line exactly when no marker ends it and
    no marker in it is followed by a blank. *)
Theorem xtract_doc_comment_1_null :
  forall l : string,
    xtract_doc_comment_1 l = None
    <-> ((ends_in_marker l -> False) /\ (forall k, marker_at l k -> False)).
Proof.
  intros l. unfold xtract_doc_comment_1. split.
  - intros H. destruct (re_match re_marker_only l) eqn:O; [discriminate|].
    destruct (re_match re_marker_text l) eqn:T; [discriminate|]. split.
    + intros E. apply ends_in_marker_iff in E. rewrite O in E. discriminate.
    + intros k M. apply marker_at_found in M. rewrite T in M. discriminate.
  - intros [Hend Hat].
    destruct (re_match re_marker_only l) eqn:O.
    { exfalso. apply Hend, ends_in_marker_iff. now rewrite O. }
    destruct (re_match re_marker_text l) as [g|] eqn:T; [|reflexivity].
    exfalso. apply found_marker_at in T as (pre & m & rest & Hm & E & _).
    apply (Hat (String.length pre)). now exists pre, m, rest.
Qed.

Lemma xtract_payload_dot (l doc : string) :
  xtract_doc_comment_1 l = Some doc -> all_chars dot doc = true.
Proof.
  unfold xtract_doc_comment_1.
  destruct (re_match re_marker_only l); [intros H; now injection H as <-|].
  destruct (re_match re_marker_text l) as [g|] eqn:T; [|discriminate].
  intros H. injection H as <-.
  apply found_marker_at in T as (pre & m & rest & _ & _ & ->). apply dot_prefix_dot.
Qed.

(** X2.  The payload never holds a line terminator, and for a line without
    line terminator it is what the line ends with. *)
Theorem xtract_doc_comment_1_payload :
  forall l doc : string,
    xtract_doc_comment_1 l = Some doc ->
    all_chars dot doc = true
    /\ (all_chars dot l = true -> exists pre, l = (pre ++ doc)%string).
Proof.
  intros l doc. unfold xtract_doc_comment_1.
  destruct (re_match re_marker_only l) eqn:O.
  - intros H. injection H as <-. split; [reflexivity|].
    intros _. exists l. now rewrite append_nil_r.
  - destruct (re_match re_marker_text l) as [g|] eqn:T; [|discriminate].
    intros H. injection H as <-.
    apply found_marker_at in T as (pre & m & rest & Hm & -> & ->).
    split; [apply dot_prefix_dot|]. intros D.
    rewrite !all_chars_app in D. apply andb_prop in D as [_ D].
    apply andb_prop in D as [_ D]. apply andb_prop in D as [_ D].
    rewrite (dot_prefix_all _ D). exists (pre ++ m ++ " ")%string.
    now rewrite !append_assoc.
Qed.

Lemma xtract_doc_comment_1_payload_witness :
  all_chars dot "# Title" = true
  /\ exists pre, "  x = 1 //** # Title" = (pre ++ "# Title")%string.
Proof.
  destruct (xtract_doc_comment_1_payload "  x = 1 //** # Title" "# Title" eq_refl)
    as [H1 H2].
  split; [exact H1|]. apply H2. reflexivity.
Defined.

(** ** [xtract_1] *)

Lemma push_active_snoc (before : list (list string)) (b : list string) (doc : string) :
  push_active (before ++ [b]) doc = before ++ [b ++ [doc]].
Proof. unfold push_active. rewrite rev_app_distr. simpl. now rewrite rev_involutive. Qed.

Lemma nonempty_snoc {A} (l : list A) : l <> [] -> exists l' x, l = l' ++ [x].
Proof.
  intros H. destruct (exists_last H) as (l' & x & ->). now exists l', x.
Qed.

Lemma push_active_app (D E : list (list string)) (doc : string) :
  E <> [] -> push_active (D ++ E) doc = D ++ push_active E doc.
Proof.
  intros H. destruct (nonempty_snoc E H) as (E' & b & ->).
  now rewrite app_assoc, !push_active_snoc, app_assoc.
Qed.

Lemma push_active_nonempty (D : list (list string)) (doc : string) :
  push_active D doc <> [].
Proof.
  unfold push_active. destruct (rev D); [discriminate|].
  intros H. apply app_eq_nil in H as [_ H]. discriminate.
Qed.

Lemma concat_push_active (D : list (list string)) (doc : string) :
  List.concat (push_active D doc) = List.concat D ++ [doc].
Proof.
  destruct D as [|b D]; [reflexivity|].
  destruct (nonempty_snoc (b :: D)) as (D' & b' & ->); [discriminate|].
  rewrite push_active_snoc, !concat_app. simpl. now rewrite !app_nil_r, app_assoc.
Qed.

(** The blocks already in [docblocks] are left alone by what follows. *)
Lemma xtract_fold_app (lines : list string) :
  forall (D E : list (list string)) (active : bool),
    (active = true -> E <> []) ->
    fold_left xtract_line lines (D ++ E, active)
    = (D ++ fst (fold_left xtract_line lines (E, active)),
       snd (fold_left xtract_line lines (E, active))).
Proof.
  induction lines as [|l lines IH]; intros D E active HE; simpl; [reflexivity|].
  destruct (xtract_doc_comment_1 l) as [doc|].
  - destruct active.
    + rewrite push_active_app by auto. apply IH. intros _. apply push_active_nonempty.
    + rewrite <- app_assoc. apply IH. intros _ H.
      apply app_eq_nil in H as [_ H]. discriminate.
  - apply IH. discriminate.
Qed.

Lemma xtract_fold_concat (lines : list string) :
  forall (D : list (list string)) (active : bool),
    List.concat (fst (fold_left xtract_line lines (D, active)))
    = List.concat D ++ payloads lines.
Proof.
  induction lines as [|l lines IH]; intros D active; simpl.
  - now rewrite app_nil_r.
  - destruct (xtract_doc_comment_1 l) as [doc|]; [|apply IH].
    destruct active; rewrite IH.
    + now rewrite concat_push_active, <- app_assoc.
    + rewrite concat_app. simpl. now rewrite <- app_assoc.
Qed.

(** A run of documentation lines extends the active block. *)
Lemma xtract_fold_run (lines : list string) :
  (forall l, In l lines -> xtract_doc_comment_1 l <> None) ->
  forall (before : list (list string)) (b : list string),
    fold_left xtract_line lines (before ++ [b], true)
    = (before ++ [b ++ payloads lines], true).
Proof.
  induction lines as [|l lines IH]; intros Hdoc before b; simpl.
  - now rewrite app_nil_r.
  - destruct (xtract_doc_comment_1 l) as [doc|] eqn:X.
    + rewrite push_active_snoc, IH by (intros l' Hl'; apply Hdoc; now right).
      now rewrite <- app_assoc.
    + exfalso. apply (Hdoc l); [now left|exact X].
Qed.

(** X3.  Extraction loses, repeats and reorders nothing: the lines of the
    blocks, read in order, are the lines already there followed by the
    payloads of the documentation lines of the file; and the blocks that
    were there before the file are untouched, the file only adds blocks. *)
Theorem xtract_1_adds_the_payloads_in_order :
  forall (data : string) (docblocks : list (list string)),
    List.concat (xtract_1 data docblocks)
    = List.concat docblocks ++ payloads (split_lines data)
    /\ xtract_1 data docblocks = docblocks ++ xtract_1 data [].
Proof.
  intros data docblocks. unfold xtract_1. split.
  - apply xtract_fold_concat.
  - rewrite <- (app_nil_r docblocks) at 1.
    rewrite xtract_fold_app by discriminate. reflexivity.
Qed.

Lemma xtract_fold_wellformed (lines : list string) :
  forall (D : list (list string)) (active : bool),
    Forall (fun b => b <> [] /\ Forall (fun l => all_chars dot l = true) b) D ->
    Forall (fun b => b <> [] /\ Forall (fun l => all_chars dot l = true) b)
           (fst (fold_left xtract_line lines (D, active))).
Proof.
  induction lines as [|l lines IH]; intros D active HD; simpl; [exact HD|].
  destruct (xtract_doc_comment_1 l) as [doc|] eqn:X; [|now apply IH].
  apply xtract_payload_dot in X. rename X into Hdoc.
  destruct active; apply IH.
  - destruct D as [|b0 D0]; [repeat constructor; [discriminate|exact Hdoc]|].
    destruct (nonempty_snoc (b0 :: D0)) as (D' & b & E); [discriminate|].
    rewrite E in *. rewrite push_active_snoc.
    apply Forall_app in HD as [HD' Hb]. apply Forall_app. split; [exact HD'|].
    inversion Hb as [|? ? [Hne Hl] _]; subst. repeat constructor.
    + intros H. apply app_eq_nil in H as [_ H]. discriminate.
    + apply Forall_app. split; [exact Hl|]. now repeat constructor.
  - apply Forall_app. split; [exact HD|]. repeat constructor; [discriminate|exact Hdoc].
Qed.

(** X4.  Every extracted block has at least one line, and no line of a block
    holds a line terminator. *)
Theorem xtract_1_blocks_are_wellformed :
  forall data : string,
    Forall (fun b => b <> [] /\ Forall (fun l => all_chars dot l = true) b)
           (xtract_1 data []).
Proof. intros data. unfold xtract_1. apply xtract_fold_wellformed. constructor. Qed.

(** X5.  A line that is no documentation line closes the block before it: what
    follows is extracted as if the file started there.  Lines that are all
    documentation lines make one block. *)
Theorem xtract_lines_blocks_are_the_runs :
  forall (data : string) (docblocks : list (list string)),
    xtract_1 data docblocks = xtract_lines (split_lines data) docblocks
    /\ (forall l1 l2 x,
           xtract_doc_comment_1 x = None ->
           xtract_lines (l1 ++ x :: l2) docblocks
           = xtract_lines l1 docblocks ++ xtract_lines l2 [])
    /\ (forall l lines,
           (forall l', In l' (l :: lines) -> xtract_doc_comment_1 l' <> None) ->
           xtract_lines (l :: lines) docblocks
           = docblocks ++ [payloads (l :: lines)]).
Proof.
  intros data docblocks. split; [reflexivity|]. split.
  - intros l1 l2 x X. unfold xtract_lines.
    rewrite fold_left_app. cbn [fold_left].
    destruct (fold_left xtract_line l1 (docblocks, false)) as [D a].
    assert (xtract_line (D, a) x = (D, false)) as ->
      by (unfold xtract_line; now rewrite X).
    rewrite <- (app_nil_r D) at 1. rewrite xtract_fold_app by discriminate.
    reflexivity.
  - intros l lines Hdoc. unfold xtract_lines. cbn [fold_left].
    destruct (xtract_doc_comment_1 l) as [doc|] eqn:X.
    + assert (xtract_line (docblocks, false) l = (docblocks ++ [[doc]], true)) as ->
        by (unfold xtract_line; now rewrite X).
      rewrite xtract_fold_run by (intros l' Hl'; apply Hdoc; now right).
      unfold payloads. cbn [flat_map]. now rewrite X.
    + exfalso. apply (Hdoc l); [now left|exact X].
Qed.

Lemma xtract_lines_blocks_are_the_runs_witness :
  xtract_lines (["//** a"; "//** b"] ++ "code" :: ["##** c"]) [["old"]]
  = xtract_lines ["//** a"; "//** b"] [["old"]] ++ xtract_lines ["##** c"] []
  /\ xtract_lines ["//** a"; "//** b"] [["old"]]
     = [["old"]] ++ [payloads ["//** a"; "//** b"]].
Proof.
  destruct (xtract_lines_blocks_are_the_runs "" [["old"]]) as (_ & Hcut & Hrun).
  split.
  - apply Hcut. reflexivity.
  - apply Hrun. intros l' [<-|[<-|[]]]; discriminate.
Defined.

(** ** [gen_1] and the search of [regen_readme] *)

Lemma flat_map_length_const {A B} (F : A -> list B) (l : list A) (k : nat) :
  (forall i, In i l -> List.length (F i) = k) ->
  List.length (flat_map F l) = List.length l * k.
Proof.
  induction l as [|x l IH]; intros H; simpl; [reflexivity|].
  rewrite length_app, H by now left. rewrite IH; [reflexivity|].
  intros i Hi. apply H. now right.
Qed.

Lemma remove_NoDup_length (l : list nat) (x : nat) :
  NoDup l -> In x l -> S (List.length (remove Nat.eq_dec x l)) = List.length l.
Proof.
  induction 1 as [|y l Hy ND IH]; intros Hx; [contradiction|]. simpl.
  destruct (Nat.eq_dec x y) as [->|Hne].
  - now rewrite notin_remove.
  - simpl. rewrite IH; [reflexivity|]. destruct Hx; congruence.
Qed.

Lemma remove_NoDup (l : list nat) (x : nat) : NoDup l -> NoDup (remove Nat.eq_dec x l).
Proof.
  induction 1 as [|y l Hy ND IH]; simpl; [constructor|].
  destruct (Nat.eq_dec x y); [exact IH|]. constructor; [|exact IH].
  intros H. apply in_remove in H as [H _]. contradiction.
Qed.

Lemma index_orderings_length (fuel : nat) :
  forall rem, NoDup rem -> List.length rem <= fuel ->
              List.length (index_orderings fuel rem) = fact (List.length rem).
Proof.
  induction fuel as [|fuel IH]; intros [|i rem] ND Hf; try reflexivity.
  - simpl in Hf. lia.
  - change (index_orderings (S fuel) (i :: rem))
      with (flat_map
              (fun j => map (cons j)
                          (index_orderings fuel (remove Nat.eq_dec j (i :: rem))))
              (i :: rem)).
    rewrite (flat_map_length_const _ _ (fact (List.length rem))).
    + reflexivity.
    + intros j Hj. rewrite length_map.
      pose proof (remove_NoDup_length (i :: rem) j ND Hj) as L.
      change (List.length (i :: rem)) with (S (List.length rem)) in L, Hf.
      rewrite IH; [f_equal; lia|now apply remove_NoDup|lia].
Qed.

(** X6.  [gen_1(cb)] calls [cb] once for every ordering of the blocks, and for
    nothing else: [docblocks.length]! calls, each on a permutation, every
    permutation among them. *)
Theorem gen_1_calls_back_on_every_permutation :
  forall (State : Type) (cb : list (list string) -> State -> State)
         (docblocks : list (list string)) (st : State),
    gen_1 State docblocks cb (List.length docblocks) [] [] st
    = fold_left (fun st perm => cb perm st) (orderings docblocks) st
    /\ (forall P, In P (orderings docblocks) <-> Permutation docblocks P)
    /\ List.length (orderings docblocks) = fact (List.length docblocks).
Proof.
  intros State cb docblocks st. split; [apply gen_1_fold|].
  split; [intros P; apply orderings_spec|].
  rewrite orderings_lexicographic, length_map, index_orderings_length.
  - now rewrite length_seq.
  - apply seq_NoDup.
  - now rewrite length_seq.
Qed.

(** X7.  The search always ends with a result ([min.data] is never left [null]),
    and with the least true distance over all orderings of the blocks. *)
Theorem regen_search_finds_the_least_distance :
  forall (readme : string) (docblocks : list (list string)),
    exists d merged,
      min_dist (regen_search readme docblocks) = Some d
      /\ min_data (regen_search readme docblocks) = Some merged
      /\ regen_data readme docblocks = Some (trim (join nl merged))
      /\ (forall P, Permutation docblocks P ->
                    d <= distance (split_lines readme) P)
      /\ (exists P, Permutation docblocks P
                    /\ distance (split_lines readme) P = d
                    /\ merged_lines (split_lines readme) P = merged).
Proof.
  intros readme docblocks.
  destruct (regen_search_last_min readme docblocks)
    as (before & W & after & E & Hd & Hm & Hb & Ha).
  exists (distance (split_lines readme) W), (merged_lines (split_lines readme) W).
  split; [exact Hd|]. split; [exact Hm|]. split; [unfold regen_data; now rewrite Hm|].
  split.
  - intros P HP. apply orderings_spec in HP. rewrite E in HP.
    apply in_app_iff in HP as [HP|[<-|HP]].
    + now apply Hb.
    + lia.
    + specialize (Ha P HP). lia.
  - exists W. repeat split. apply orderings_spec. rewrite E.
    apply in_app_iff. right. now left.
Qed.

(** What [dists] records. *)
Lemma StronglySorted_snoc (l : list nat) (d : nat) :
  StronglySorted ge l -> (forall x, In x l -> x >= d) ->
  StronglySorted ge (l ++ [d]).
Proof.
  induction 1 as [|a l Hl IH Ha]; intros Hd; simpl.
  - repeat constructor.
  - constructor.
    + apply IH. intros x Hx. apply Hd. now right.
    + apply Forall_app. split; [exact Ha|]. constructor; [|constructor].
      apply Hd. now left.
Qed.

Lemma last_Some_In (l : list nat) (b : nat) :
  last (map Some l) None = Some b -> In b l.
Proof.
  induction l as [|y l IH]; [discriminate|]. destruct l as [|z l].
  - simpl. intros H. injection H as ->. now left.
  - intros H. right. apply IH. exact H.
Qed.

Lemma last_Some_nil (l : list nat) : last (map Some l) None = None -> l = [].
Proof.
  induction l as [|y l IH]; [reflexivity|]. destruct l as [|z l]; [discriminate|].
  intros H. discriminate (IH H).
Qed.

Lemma sorted_last_least (l : list nat) (b x : nat) :
  StronglySorted ge l -> last (map Some l) None = Some b -> In x l -> x >= b.
Proof.
  induction 1 as [|a l Hl IH Ha]; intros Hb Hx; [contradiction|].
  destruct l as [|a' l'].
  - simpl in Hb. injection Hb as ->. destruct Hx as [->|[]]. lia.
  - change (last (map Some (a' :: l')) None = Some b) in Hb.
    destruct Hx as [->|Hx].
    + rewrite Forall_forall in Ha. apply Ha. now apply last_Some_In.
    + now apply IH.
Qed.

Lemma score_all_dists (rlines : list string) (cands : list (list (list string))) :
  StronglySorted ge (dists (score_all rlines cands))
  /\ min_dist (score_all rlines cands)
     = last (map Some (dists (score_all rlines cands))) None
  /\ List.length (dists (score_all rlines cands)) <= List.length cands
  /\ (forall x, In x (dists (score_all rlines cands)) ->
                exists P, In P cands /\ distance rlines P = x).
Proof.
  induction cands as [|q cands IH] using rev_ind.
  - simpl. repeat split; [constructor|lia|intros x []].
  - destruct IH as (Hs & Hl & Hn & Hin).
    rewrite score_all_snoc, find_min_1_spec, length_app. simpl List.length.
    destruct (exceeds (min_dist (score_all rlines cands)) (distance rlines q)) eqn:X.
    + split; [exact Hs|]. split; [exact Hl|]. split; [lia|].
      intros x Hx. destruct (Hin x Hx) as (P & HP & <-).
      exists P. split; [apply in_app_iff; now left|reflexivity].
    + cbn [dists min_dist]. split; [|split; [|split]].
      * apply StronglySorted_snoc; [exact Hs|]. intros x Hx.
        destruct (min_dist (score_all rlines cands)) as [b|] eqn:Hb.
        -- simpl in X. apply Nat.ltb_ge in X.
           pose proof (sorted_last_least _ b x Hs (eq_sym Hl) Hx). lia.
        -- symmetry in Hl. apply last_Some_nil in Hl. rewrite Hl in Hx. contradiction.
      * rewrite map_app. simpl. now rewrite last_last.
      * rewrite length_app. simpl. lia.
      * intros x Hx. apply in_app_iff in Hx as [Hx|[<-|[]]].
        -- destruct (Hin x Hx) as (P & HP & <-).
           exists P. split; [apply in_app_iff; now left|reflexivity].
        -- exists q. split; [apply in_app_iff; right; now left|reflexivity].
Qed.

(** X8.  [dists] never goes up: each distance recorded is at most the ones
    recorded before it, the last one is [min.dist], and each is the true
    distance of an ordering; at most [docblocks.length]! are recorded. *)
Theorem regen_search_dists_never_increase :
  forall (readme : string) (docblocks : list (list string)),
    let m := regen_search readme docblocks in
    StronglySorted ge (dists m)
    /\ min_dist m = last (map Some (dists m)) None
    /\ 1 <= List.length (dists m) <= fact (List.length docblocks)
    /\ (forall x, In x (dists m) ->
                  exists P, Permutation docblocks P
                            /\ distance (split_lines readme) P = x).
Proof.
  intros readme docblocks m. unfold m. rewrite regen_search_score.
  destruct (score_all_dists (split_lines readme) (orderings docblocks))
    as (Hs & Hl & Hn & Hin).
  split; [exact Hs|]. split; [exact Hl|]. split.
  - split.
    + destruct (score_all_last_min (split_lines readme) (orderings docblocks)
                  (orderings_nonempty docblocks)) as (_ & P & _ & _ & Hd & _).
      rewrite Hd in Hl.
      destruct (dists (score_all (split_lines readme) (orderings docblocks)));
        [discriminate|simpl; lia].
    + assert (List.length (orderings docblocks) = fact (List.length docblocks)) as L.
      { rewrite orderings_lexicographic, length_map, index_orderings_length.
        - now rewrite length_seq.
        - apply seq_NoDup.
        - now rewrite length_seq. }
      now rewrite L in Hn.
  - intros x Hx. destruct (Hin x Hx) as (P & HP & <-). exists P.
    split; [now apply orderings_spec|reflexivity].
Qed.

(** ** The loop of [find_min_1] *)

Lemma in_splice (i : nat) (y x : string) (a : list string) :
  In x (splice i y a) -> x = y \/ In x a.
Proof.
  unfold splice. intros H. rewrite <- (firstn_skipn i a).
  apply in_app_iff in H as [H|[H|H]]; [right|now left|right];
    apply in_app_iff; auto.
Qed.

Lemma Forall_splice (Q : string -> Prop) (i : nat) (y : string) (a : list string) :
  Q y -> Forall Q a -> Forall Q (splice i y a).
Proof.
  intros Hy Ha. unfold splice. rewrite <- (firstn_skipn i a) in Ha.
  apply Forall_app in Ha as [H1 H2]. apply Forall_app. split; [exact H1|].
  now constructor.
Qed.

Lemma strict_eq_in_range (l : list string) (k : nat) (y : string) :
  strict_eq (nth_error l k) y = true -> k < List.length l.
Proof.
  intros H. apply nth_error_Some. destruct (nth_error l k); [discriminate|].
  discriminate H.
Qed.

Section LoopFacts.

Variable rlines : list string.

Lemma walk_provenance (best : option nat) (fuel : nat) (s : walk_state)
  (d : nat) (m : list string) :
  walk rlines best fuel s = Finished d m ->
  (forall x, In x m -> In x (data s) \/ (In x rlines /\ ordinary x = false))
  /\ List.length m <= List.length (data s) + (List.length rlines - nr s).
Proof.
  functional induction (walk rlines best fuel s); intros H;
    try discriminate;
    try (pose proof (in_range rlines _ e) as [Hrd Hrr]);
    try (apply IHo in H as [Hin Hlen]; simpl in Hin, Hlen).
  - split; [exact Hin|lia].
  - split; [exact Hin|lia].
  - split.
    + intros x Hx. destruct (Hin x Hx) as [Hd|Hr]; [|now right].
      apply in_splice in Hd as [->|Hd]; [right|now left].
      split; [now apply nth_In|]. unfold ordinary. now rewrite e3.
    + rewrite splice_length in Hlen. lia.
  - destruct (mismatch_moves rlines s) as (Ed & _ & Hnr & _). rewrite Ed in *.
    split; [exact Hin|lia].
  - injection H as _ <-. split; [now left|lia].
Qed.

Lemma walk_free_of_charge (best : option nat) (fuel : nat) (s : walk_state)
  (d : nat) (m : list string) :
  walk rlines best fuel s = Finished d m ->
  Forall (fun l => ordinary l = false) rlines
  \/ Forall (fun l => ordinary l = false) (data s) ->
  d = dist s.
Proof.
  functional induction (walk rlines best fuel s); intros H Hno;
    try discriminate;
    try (pose proof (in_range rlines _ e) as [Hrd Hrr]).
  - now apply IHo in H.
  - now apply IHo in H.
  - apply IHo in H; [exact H|]. simpl. destruct Hno as [Hno|Hno]; [now left|right].
    apply Forall_splice; [|exact Hno]. unfold ordinary. now rewrite e3.
  - exfalso. destruct Hno as [Hno|Hno]; rewrite Forall_forall in Hno.
    + specialize (Hno _ (nth_In _ "" Hrr)). unfold ordinary in Hno.
      rewrite e3 in Hno. discriminate.
    + specialize (Hno _ (nth_In _ "" Hrd)). unfold ordinary in Hno.
      rewrite e2 in Hno. discriminate.
  - now injection H as <- _.
Qed.

Lemma mismatch_cost (s : walk_state) :
  nd s < List.length (data s) -> nr s < List.length rlines ->
  dist (mismatch rlines s) + 6 * (List.length rlines - nr (mismatch rlines s))
  <= dist s + 6 * (List.length rlines - nr s)
  /\ dist (mismatch rlines s)
     + 6 * (List.length (data s) - nd (mismatch rlines s))
     <= dist s + 6 * (List.length (data s) - nd s).
Proof.
  intros Hd Hr. unfold mismatch.
  pose proof (lookahead_spec rlines s (nth (nd s) (data s) "") (nth (nr s) rlines "")
                (maxLookAhead - 1) 1) as H.
  destruct (lookahead rlines s _ _ _ _) as [j|j|]; simpl.
  - destruct H as (Hj & R & _). apply strict_eq_in_range in R.
    unfold maxLookAhead in Hj. lia.
  - destruct H as (Hj & _ & D & _). apply strict_eq_in_range in D.
    unfold maxLookAhead in Hj. lia.
  - lia.
Qed.

Lemma walk_cost (best : option nat) (fuel : nat) (s : walk_state)
  (d : nat) (m : list string) :
  walk rlines best fuel s = Finished d m ->
  d <= dist s + 6 * (List.length rlines - nr s)
  /\ d <= dist s + 6 * (List.length (data s) - nd s).
Proof.
  functional induction (walk rlines best fuel s); intros H;
    try discriminate;
    try (pose proof (in_range rlines _ e) as [Hrd Hrr]);
    try (apply IHo in H as [H1 H2]; simpl in H1, H2).
  - lia.
  - lia.
  - rewrite splice_length in H2. lia.
  - destruct (mismatch_moves rlines s) as (Ed & _). rewrite Ed in H2.
    pose proof (mismatch_cost s Hrd Hrr). lia.
  - injection H as <- _. lia.
Qed.

End LoopFacts.

(** X9.  One run of [find_min_1] always ends, within [data.length +
    rlines.length] rounds of its loop; it returns early exactly when the
    true distance of the candidate is greater than [min.dist], and
    otherwise stores the candidate's true distance and merged sequence. *)
Theorem find_min_1_ends_and_aborts_exactly :
  forall (rlines : list string) (perm : list (list string)) (m : search_state),
    exists d merged,
      walk rlines None (walk_fuel rlines (List.concat perm))
           (Walk (List.concat perm) 0 0 0) = Finished d merged
      /\ walk rlines (min_dist m) (walk_fuel rlines (List.concat perm))
              (Walk (List.concat perm) 0 0 0)
         = (if exceeds (min_dist m) d then Aborted else Finished d merged)
      /\ find_min_1 rlines perm m
         = (if exceeds (min_dist m) d then m
            else Search (Some d) (Some merged) (dists m ++ [d])).
Proof.
  intros rlines perm m.
  exists (distance rlines perm), (merged_lines rlines perm).
  pose proof (align_finished rlines perm) as A. unfold align in A.
  split; [exact A|]. split; [|apply find_min_1_spec].
  destruct (min_dist m) as [b|]; [|exact A].
  apply walk_bounded; [simpl; lia|exact A].
Qed.

(** X10.  The merged sequence of an ordering holds nothing but the lines of the
    blocks and README lines that are empty or structural, and is at most
    as long as the blocks and the README together. *)
Theorem merged_lines_come_from_blocks_or_structural_readme_lines :
  forall (rlines : list string) (perm : list (list string)),
    (forall x, In x (merged_lines rlines perm) ->
               In x (List.concat perm) \/ (In x rlines /\ ordinary x = false))
    /\ subseq (List.concat perm) (merged_lines rlines perm)
    /\ List.length (merged_lines rlines perm)
       <= List.length (List.concat perm) + List.length rlines.
Proof.
  intros rlines perm. pose proof (align_finished rlines perm) as A. unfold align in A.
  destruct (walk_provenance rlines _ _ _ _ _ A) as [Hin Hlen]. simpl in Hin, Hlen.
  split; [exact Hin|]. split; [apply merged_lines_subseq|lia].
Qed.

(** X11.  Only a mismatch between two ordinary lines costs anything: when the
    README has no ordinary line, or the blocks have none, every ordering is
    at distance 0. *)
Theorem distance_is_zero_without_ordinary_lines :
  forall (rlines : list string) (perm : list (list string)),
    Forall (fun l => ordinary l = false) rlines
    \/ Forall (fun l => ordinary l = false) (List.concat perm) ->
    distance rlines perm = 0.
Proof.
  intros rlines perm H. pose proof (align_finished rlines perm) as A. unfold align in A.
  now apply walk_free_of_charge in A.
Qed.

Lemma distance_is_zero_without_ordinary_lines_witness :
  distance (split_lines (unlines ["![logo](logo.png)"; ""; "<hr>"]))
           [["b"; "c"]; ["a"]] = 0.
Proof.
  apply distance_is_zero_without_ordinary_lines. left. repeat constructor.
Defined.

(** X12.  A mismatch costs at most 6, and each one uses up a line on both
    sides: the distance of an ordering is at most six times the number of
    README lines, and at most six times the number of block lines. *)
Theorem distance_is_bounded :
  forall (rlines : list string) (perm : list (list string)),
    distance rlines perm <= 6 * List.length rlines
    /\ distance rlines perm <= 6 * List.length (List.concat perm).
Proof.
  intros rlines perm. pose proof (align_finished rlines perm) as A. unfold align in A.
  apply walk_cost in A. simpl in A. lia.
Qed.

(** ** [saveReadme], [regen_readme] and [main] *)

(** X13.  What [main] writes is trimmed: [readsafely] reads it back as it is. *)
Theorem main_output_is_read_back_unchanged :
  forall (diffLines : string -> string -> list part) (file : option string)
         (docblocks : list (list string)) (out : string),
    main diffLines file docblocks = Some out ->
    readsafely (Some out) = Some out.
Proof.
  intros diffLines file docblocks out. unfold main, readsafely. simpl.
  destruct docblocks as [|b bs]; [discriminate|].
  destruct file as [content|]; simpl.
  - unfold regen_readme.
    destruct (regen_data (trim content) (b :: bs)); [|discriminate].
    intros H. injection H as <-. unfold saveReadme. now rewrite trim_idem.
  - intros H. injection H as <-. unfold saveReadme. now rewrite trim_idem.
Qed.

Lemma main_output_is_read_back_unchanged_witness :
  readsafely (Some (unlines ["a"; "![x](y.png)"; "b"]))
  = Some (unlines ["a"; "![x](y.png)"; "b"]).
Proof.
  apply (main_output_is_read_back_unchanged whole_diff
           (Some (unlines [" a"; "![x](y.png)"; "b"; ""])) [["b"]; ["a"]]).
  reflexivity.
Defined.

(** X14.  The diff only decides what is reported: with a README, the text written
    is the constant [data] of [regen_readme], whatever parts the diff of
    the old text and [data] is made of, as long as its parts that are not
    removed spell the new text and none of them is fresh. *)
Theorem main_writes_the_merged_text :
  forall diffLines : string -> string -> list part,
    (forall a b,
        join_empty (map value (filter (fun p => negb (removed p)) (diffLines a b)))
        = b) ->
    (forall a b, Forall (fun p => fresh p = false) (diffLines a b)) ->
    forall (content : string) (b : list string) (bs : list (list string)),
      main diffLines (Some content) (b :: bs) = regen_data (trim content) (b :: bs)
      /\ exists data, regen_data (trim content) (b :: bs) = Some data.
Proof.
  intros diffLines Hnew Hfresh content b bs. split.
  - unfold main. simpl readsafely. cbv iota.
    unfold regen_readme, regen_data.
    destruct (min_data (regen_search (trim content) (b :: bs))); [|reflexivity].
    now rewrite (saveReadme_diff_new diffLines Hnew Hfresh), trim_idem.
  - destruct (regen_search_last_min (trim content) (b :: bs))
      as (_ & W & _ & _ & _ & Hm & _).
    unfold regen_data. rewrite Hm. eauto.
Qed.

Lemma main_writes_the_merged_text_witness :
  main added_diff (Some (unlines ["b"; "<hr>"; "a"; ""])) [["a"]; ["b"]]
  = regen_data (trim (unlines ["b"; "<hr>"; "a"; ""])) [["a"]; ["b"]]
  /\ main added_diff (Some (unlines ["b"; "<hr>"; "a"; ""])) [["a"]; ["b"]]
     = Some (unlines ["b"; "<hr>"; "a"]).
Proof.
  split; [|vm_compute; reflexivity].
  apply (main_writes_the_merged_text added_diff).
  - intros a b. simpl. apply append_nil_r.
  - intros a b. repeat constructor.
Defined.

Lemma split_lines_dot (x : string) : all_chars dot x = true -> split_lines x = [x].
Proof.
  induction x as [|c x IH]; simpl; [reflexivity|]. intros H.
  apply andb_prop in H as [C H]. unfold dot in C. apply negb_true_iff in C.
  now rewrite C, IH.
Qed.

Lemma split_lines_app_dot (x t : string) :
  all_chars dot x = true -> split_lines (x ++ String LF t) = x :: split_lines t.
Proof.
  induction x as [|c x IH]; simpl; [reflexivity|]. intros H.
  apply andb_prop in H as [C H]. unfold dot in C. apply negb_true_iff in C.
  now rewrite C, IH.
Qed.

(** Joining lines by newlines and splitting again gives the lines back. *)
Lemma split_lines_join (ls : list string) :
  ls <> [] -> Forall (fun l => all_chars dot l = true) ls ->
  split_lines (join nl ls) = ls.
Proof.
  unfold join. induction ls as [|x ls IH]; [congruence|]. intros _ H.
  inversion H as [|? ? Hx Hls]; subst. destruct ls as [|y ls].
  - simpl. now apply split_lines_dot.
  - change (String.concat nl (x :: y :: ls))
      with (x ++ String LF (String.concat nl (y :: ls)))%string.
    rewrite split_lines_app_dot by exact Hx. f_equal. apply IH; [discriminate|exact Hls].
Qed.

Lemma no_cr_app (a b : string) : no_cr (a ++ b) = no_cr a && no_cr b.
Proof. induction a as [|c a IH]; simpl; [reflexivity|]. now rewrite IH, andb_assoc. Qed.

Lemma no_cr_dot (x : string) : all_chars dot x = true -> no_cr x = true.
Proof.
  induction x as [|c x IH]; simpl; [reflexivity|]. intros H.
  apply andb_prop in H as [C H]. rewrite (IH H), andb_true_r.
  unfold dot, is_line_terminator, one_of in C. simpl in C.
  apply negb_true_iff in C. apply orb_false_elim in C as [_ C].
  apply orb_false_elim in C as [C _]. now rewrite C.
Qed.

Lemma no_cr_join (ls : list string) :
  Forall (fun l => all_chars dot l = true) ls -> no_cr (join nl ls) = true.
Proof.
  unfold join. induction 1 as [|x ls Hx Hls IH]; [reflexivity|].
  destruct ls as [|y ls]; [now apply no_cr_dot|].
  change (String.concat nl (x :: y :: ls))
    with (x ++ String LF (String.concat nl (y :: ls)))%string.
  rewrite no_cr_app, no_cr_dot by exact Hx. simpl. exact IH.
Qed.

(** A README that is an ordering of blocks of ordinary lines is kept. *)
Lemma regen_data_of_an_ordering (readme : string) (docblocks P : list (list string)) :
  Permutation docblocks P ->
  split_lines readme = List.concat P ->
  Forall (fun l => ordinary l = true) (List.concat docblocks) ->
  trim readme = readme ->
  no_cr readme = true ->
  regen_data readme docblocks = Some readme.
Proof.
  intros HP HR Ord Htrim Hcr. set (rlines := split_lines readme) in *.
  destruct (distance_identical rlines P HR) as [D0 _].
  destruct (regen_search_last_min readme docblocks)
    as (before & W & after & E & _ & Hm & Hb & Ha). fold rlines in Hm, Hb, Ha.
  assert (In P (orderings docblocks)) as IP by now apply orderings_spec.
  assert (distance rlines W = 0) as DW.
  { rewrite E in IP. apply in_app_iff in IP as [IP|[<-|IP]].
    - specialize (Hb P IP). lia.
    - exact D0.
    - specialize (Ha P IP). lia. }
  assert (Permutation docblocks W) as HW.
  { apply orderings_spec. rewrite E. apply in_app_iff. right. now left. }
  assert (merged_lines rlines W = rlines) as MW.
  { apply distance_zero_ordinary; auto.
    - eapply Permutation_Forall; [apply Permutation_concat, HW|exact Ord].
    - rewrite HR.
      eapply Permutation_Forall; [apply Permutation_concat, HP|exact Ord].
    - rewrite HR. apply Permutation_length, Permutation_concat.
      etransitivity; [symmetry; exact HW|exact HP]. }
  unfold regen_data. rewrite Hm, MW. unfold rlines.
  now rewrite join_split_lines, Htrim.
Qed.

(** X15.  First run, then a second run on the same sources: when every block
    line is ordinary text and the first line does not start, nor the last
    line end, with white space, the first run writes the block lines in
    extraction order and the second run writes the same text again. *)
Theorem second_run_keeps_the_first_readme :
  forall diffLines : string -> string -> list part,
    lawful_diff diffLines ->
    forall (l : string) (b : list string) (bs : list (list string)),
      let docblocks := (l :: b) :: bs in
      let readme := join nl (List.concat docblocks) in
      Forall (fun x => ordinary x = true /\ all_chars dot x = true)
             (List.concat docblocks) ->
      trim readme = readme ->
      main diffLines None docblocks = Some readme
      /\ main diffLines (Some readme) docblocks = Some readme.
Proof.
  intros diffLines lawful l b bs docblocks readme Hlines Htrim.
  assert (Hord : Forall (fun x => ordinary x = true) (List.concat docblocks))
    by (eapply Forall_impl; [|exact Hlines]; now intros x [H _]).
  assert (Hdot : Forall (fun x => all_chars dot x = true) (List.concat docblocks))
    by (eapply Forall_impl; [|exact Hlines]; now intros x [_ H]).
  split.
  - unfold main, docblocks. simpl readsafely. cbv iota.
    rewrite saveReadme_asDiff, trim_terminated. fold docblocks. fold readme.
    now rewrite Htrim.
  - unfold main, docblocks. simpl readsafely. cbv iota. fold docblocks.
    rewrite Htrim, regen_readme_data by exact lawful.
    pose proof (regen_data_of_an_ordering readme docblocks docblocks) as H.
    unfold regen_data in H. apply H; auto.
    + unfold readme. apply split_lines_join; [discriminate|exact Hdot].
    + unfold readme. now apply no_cr_join.
Qed.

Lemma second_run_keeps_the_first_readme_witness :
  let docblocks := [["# Title"; "intro"]; ["## Usage"]] in
  main whole_diff None docblocks = Some (unlines ["# Title"; "intro"; "## Usage"])
  /\ main whole_diff (Some (unlines ["# Title"; "intro"; "## Usage"])) docblocks
     = Some (unlines ["# Title"; "intro"; "## Usage"]).
Proof.
  apply (second_run_keeps_the_first_readme whole_diff whole_diff_lawful
           "# Title" ["intro"] [["## Usage"]]).
  - repeat constructor.
  - reflexivity.
Defined.

(** ** The source tree *)

Lemma endsWith_spec (s suffix : string) :
  endsWith s suffix = true <-> exists pre, s = (pre ++ suffix)%string.
Proof.
  induction s as [|c s IH]; cbn [endsWith]; rewrite orb_true_iff, String.eqb_eq.
  - split.
    + intros [<-|H]; [now exists ""|discriminate].
    + intros (pre & E). left. destruct pre; [exact E|discriminate].
  - rewrite IH. split.
    + intros [<-|(pre & ->)]; [now exists ""|now exists (String c pre)].
    + intros (pre & E). destruct pre as [|c' pre]; [now left|].
      injection E as <- ->. right. now exists pre.
Qed.

Section DirentInduction.

Variable Q : dirent -> Prop.
Hypothesis Q_directory :
  forall name entries, Forall Q entries -> Q (Directory name entries).
Hypothesis Q_file : forall name content, Q (RegularFile name content).
Hypothesis Q_other : forall name, Q (OtherEntry name).

Lemma dirent_forall_ind (ntry : dirent) : Q ntry.
Proof.
  revert ntry. fix IH 1. intros [name entries|name content|name].
  - apply Q_directory. induction entries as [|e es IHes]; constructor.
    + apply IH.
    + exact IHes.
  - apply Q_file.
  - apply Q_other.
Qed.

End DirentInduction.

Lemma flat_map_flat_map {A B C} (f : B -> list C) (g : A -> list B) (l : list A) :
  flat_map f (flat_map g l) = flat_map (fun x => flat_map f (g x)) l.
Proof.
  induction l as [|x l IH]; simpl; [reflexivity|]. now rewrite flat_map_app, IH.
Qed.

Lemma xtract_1_app (data : string) (docblocks : list (list string)) :
  xtract_1 data docblocks = docblocks ++ xtract_1 data [].
Proof.
  unfold xtract_1. rewrite <- (app_nil_r docblocks) at 1.
  rewrite xtract_fold_app by discriminate. reflexivity.
Qed.

Section Traversal.

Variable exts : list string.

Lemma x_entries_files (ntries : list dirent) :
  Forall (fun ntry => forall D,
              x_entry exts ntry D = D ++ blocks_of_files (files_of_entry exts ntry))
         ntries ->
  forall D,
    fold_left (fun docblocks ntry => x_entry exts ntry docblocks) ntries D
    = D ++ blocks_of_files (flat_map (files_of_entry exts) ntries).
Proof.
  unfold blocks_of_files.
  induction 1 as [|ntry ntries H _ IH]; intros D; simpl.
  - now rewrite app_nil_r.
  - now rewrite IH, H, flat_map_app, app_assoc.
Qed.

Lemma x_entry_files (ntry : dirent) :
  forall D, x_entry exts ntry D = D ++ blocks_of_files (files_of_entry exts ntry).
Proof.
  induction ntry as [name entries IH|name content|name] using dirent_forall_ind;
    intros D; simpl.
  - destruct (is_ok_1 name); [now apply x_entries_files|now rewrite app_nil_r].
  - destruct (falsy name); simpl; [now rewrite app_nil_r|].
    destruct (existsb (fun ext => endsWith name ext) exts); simpl.
    + now rewrite app_nil_r, xtract_1_app.
    + now rewrite app_nil_r.
  - now rewrite app_nil_r.
Qed.

Lemma x_1_files (ntries : list dirent) (D : list (list string)) :
  x_1 exts ntries D = D ++ blocks_of_files (read_files exts ntries).
Proof.
  unfold x_1, read_files. apply x_entries_files, Forall_forall.
  intros ntry _. apply x_entry_files.
Qed.

Lemma blocks_of_files_wellformed (files : list string) :
  Forall (fun b => b <> [] /\ Forall (fun l => all_chars dot l = true) b)
         (blocks_of_files files).
Proof.
  unfold blocks_of_files. induction files as [|c files IH]; simpl; [constructor|].
  apply Forall_app. split; [|exact IH].
  unfold xtract_1. apply xtract_fold_wellformed. constructor.
Qed.

Lemma blocks_of_files_concat (files : list string) :
  List.concat (blocks_of_files files)
  = flat_map (fun content => payloads (split_lines content)) files.
Proof.
  unfold blocks_of_files. induction files as [|c files IH]; simpl; [reflexivity|].
  rewrite concat_app, IH. f_equal. unfold xtract_1. apply xtract_fold_concat.
Qed.

End Traversal.

(** X16.  The blocks extracted from a directory are the blocks of the files
    read, file after file in the order of the listings: no file adds to,
    or changes, the blocks of another, and the lines of the blocks are the
    payloads of the documentation lines of those files, in order. *)
Theorem x_1_extracts_file_by_file :
  forall (exts : list string) (ntries : list dirent) (docblocks : list (list string)),
    x_1 exts ntries docblocks
    = docblocks ++ flat_map (fun content => xtract_1 content []) (read_files exts ntries)
    /\ List.concat (x_1 exts ntries [])
       = flat_map (fun content => payloads (split_lines content))
                  (read_files exts ntries).
Proof.
  intros exts ntries docblocks. split; [apply x_1_files|].
  rewrite x_1_files. simpl. apply blocks_of_files_concat.
Qed.

(** X17.  [xtractUserDocz] never returns an empty list and never an empty block:
    it returns [undefined] exactly when the files read have no
    documentation line, and otherwise blocks that each have a line, none
    of which holds a line terminator. *)
Theorem xtractUserDocz_returns_wellformed_blocks :
  forall (exts : list string) (src : source),
    let files :=
      match src with
      | SrcFile content => [content]
      | SrcDir entries => read_files exts entries
      end in
    (xtractUserDocz exts src = None
     <-> flat_map (fun content => payloads (split_lines content)) files = [])
    /\ (forall docblocks,
           xtractUserDocz exts src = Some docblocks ->
           docblocks <> []
           /\ Forall (fun b => b <> [] /\ Forall (fun l => all_chars dot l = true) b)
                     docblocks
           /\ List.concat docblocks
              = flat_map (fun content => payloads (split_lines content)) files).
Proof.
  intros exts src files.
  assert (E : match src with
              | SrcFile content => xtract_1 content []
              | SrcDir entries => x_1 exts entries []
              end = blocks_of_files files).
  { unfold files, blocks_of_files. destruct src as [content|entries]; simpl.
    - now rewrite app_nil_r.
    - now rewrite x_1_files. }
  unfold xtractUserDocz. rewrite E.
  pose proof (blocks_of_files_wellformed files) as W.
  pose proof (blocks_of_files_concat files) as C.
  destruct (blocks_of_files files) as [|b D] eqn:F.
  - split; [|discriminate]. split; [intros _; now rewrite <- C|reflexivity].
  - split.
    + split; [discriminate|]. intros H. rewrite <- C in H. simpl in H.
      inversion W as [|? ? [Hb _] _]; subst.
      apply app_eq_nil in H as [H _]. contradiction.
    + intros docblocks H. injection H as <-. split; [discriminate|]. now split.
Qed.

Lemma xtractUserDocz_returns_wellformed_blocks_witness :
  let src :=
    SrcDir [ Directory "node_modules" [RegularFile "x.js" "//** hidden"];
             RegularFile "a.js" (unlines ["//** a"; "//**"; "f()"; "##** b"]);
             RegularFile "notes.txt" "//** not a source file" ] in
  xtractUserDocz [".js"] src = Some [["a"; ""]; ["b"]]
  /\ [["a"; ""]; ["b"]] <> []
  /\ Forall (fun b => b <> [] /\ Forall (fun l => all_chars dot l = true) b)
            [["a"; ""]; ["b"]].
Proof.
  intros src. split; [reflexivity|].
  destruct (xtractUserDocz_returns_wellformed_blocks [".js"] src) as [_ H].
  destruct (H [["a"; ""]; ["b"]] eq_refl) as (H1 & H2 & _). now split.
Defined.

Lemma x_1_skip (exts : list string) (es1 es2 : list dirent) (ntry : dirent)
  (D : list (list string)) :
  files_of_entry exts ntry = [] ->
  x_1 exts (es1 ++ ntry :: es2) D = x_1 exts (es1 ++ es2) D.
Proof.
  intros H. rewrite !x_1_files. unfold read_files.
  rewrite !flat_map_app. simpl. now rewrite H.
Qed.

(** X18.  What is never read: the content of a directory whose name is empty,
    [node_modules], [dist], [tmp], [_tmp] or starts with a dot, whatever is
    in it; a file whose name ends with none of the extensions; an entry
    that is neither a directory nor a file.  Leaving such an entry out of
    a listing changes nothing.  A single file given as the source is read
    whatever its name. *)
Theorem x_1_skips_ignored_entries :
  forall (exts : list string) (es1 es2 : list dirent) (D : list (list string)),
    (forall name entries,
        (name = "" \/ name = "node_modules" \/ name = "dist" \/ name = "tmp"
         \/ name = "_tmp" \/ exists rest, name = String "." rest) ->
        x_1 exts (es1 ++ Directory name entries :: es2) D = x_1 exts (es1 ++ es2) D)
    /\ (forall name content,
           (forall ext pre, In ext exts -> name <> (pre ++ ext)%string) ->
           x_1 exts (es1 ++ RegularFile name content :: es2) D
           = x_1 exts (es1 ++ es2) D)
    /\ (forall name,
           x_1 exts (es1 ++ OtherEntry name :: es2) D = x_1 exts (es1 ++ es2) D)
    /\ (forall content,
           xtractUserDocz exts (SrcFile content) = xtractUserDocz [] (SrcFile content)).
Proof.
  intros exts es1 es2 D. split; [|split; [|split]].
  - intros name entries H. apply x_1_skip. simpl.
    assert (is_ok_1 name = false) as ->; [|reflexivity].
    destruct H as [->|[->|[->|[->|[->|(rest & ->)]]]]]; try reflexivity.
    unfold is_ok_1. simpl. destruct rest; reflexivity.
  - intros name content H. apply x_1_skip. simpl.
    destruct (existsb (fun ext => endsWith name ext) exts) eqn:X;
      [|now rewrite andb_false_r].
    exfalso. apply existsb_exists in X as (ext & Hext & E).
    apply endsWith_spec in E as (pre & E). exact (H ext pre Hext E).
  - intros name. now apply x_1_skip.
  - reflexivity.
Qed.

Lemma x_1_skips_ignored_entries_witness :
  x_1 [".js"; ".py"]
      ([RegularFile "a.js" "//** a"]
         ++ Directory ".git" [RegularFile "hook.js" "//** hook"]
         :: [RegularFile "b.py" "##** b"]) []
  = x_1 [".js"; ".py"]
        ([RegularFile "a.js" "//** a"] ++ [RegularFile "b.py" "##** b"]) []
  /\ x_1 [".js"; ".py"]
         ([RegularFile "a.js" "//** a"]
            ++ RegularFile "README.md" "//** readme"
            :: [RegularFile "b.py" "##** b"]) []
     = x_1 [".js"; ".py"]
           ([RegularFile "a.js" "//** a"] ++ [RegularFile "b.py" "##** b"]) [].
Proof.
  destruct (x_1_skips_ignored_entries [".js"; ".py"]
              [RegularFile "a.js" "//** a"] [RegularFile "b.py" "##** b"] [])
    as (Hdir & Hfile & _).
  split.
  - apply Hdir. repeat right. now exists "git".
  - apply Hfile. intros ext pre [<-|[<-|[]]] E.
    + assert (endsWith "README.md" ".js" = true) as F
        by (apply endsWith_spec; now exists pre).
      discriminate F.
    + assert (endsWith "README.md" ".py" = true) as F
        by (apply endsWith_spec; now exists pre).
      discriminate F.
Defined.

(** ** Page options *)

Lemma split_lines_dotted (s : string) :
  Forall (fun l => all_chars dot l = true) (split_lines s).
Proof.
  induction s as [|c s IH]; simpl; [repeat constructor|].
  destruct (is_line_terminator c) eqn:T; [now constructor|].
  destruct (split_lines s) as [|l ls]; [repeat constructor; simpl; unfold dot; now rewrite T|].
  inversion IH; subst. constructor; [|assumption].
  simpl. unfold dot at 1. now rewrite T.
Qed.

Lemma split_lines_nonempty (s : string) : split_lines s <> [].
Proof.
  destruct s as [|c s]; simpl; [discriminate|].
  destruct (is_line_terminator c); [discriminate|].
  destruct (split_lines s); discriminate.
Qed.

(** A trimmed text does not start with a blank or a tab. *)
Lemma trimmed_not_indented (s : string) :
  truthy (re_match re_indented (trim s)) = false.
Proof.
  unfold trim. destruct (trimStart_cases s) as [E|(c & r & E & W)]; rewrite E.
  - reflexivity.
  - destruct (trimEnd_keeps_head c r W) as [r' ->].
    change (truthy (if one_of [SP; TAB] c
                    then grab (any_of [SP; TAB] Once) c (Some "")
                    else None) = false).
    destruct (one_of [SP; TAB] c) eqn:C; [|reflexivity]. exfalso.
    unfold one_of in C. simpl in C. rewrite orb_false_r in C.
    apply orb_prop in C as [C|C]; apply Ascii.eqb_eq in C; subst c; discriminate W.
Qed.

(** X19.  The test for an indented first line never succeeds, since the text has
    been trimmed: whenever [readpageoptions] parses something, every line
    of the page options has been given two leading blanks (and the lines
    are joined by newlines); an absent or blank file is parsed not at all. *)
Theorem page_options_are_always_indented :
  forall content : string,
    let lines := split_lines (trim content) in
    let indented := map (fun l => ("  " ++ l)%string) lines in
    page_options_text None = None
    /\ page_options_text (Some content)
       = (if falsy (trim content) then None
          else Some ("---" ++ nl ++ join nl indented ++ nl ++ "---" ++ nl ++ "  ")%string)
    /\ split_lines (join nl indented) = indented.
Proof.
  intros content lines indented. split; [reflexivity|]. split.
  - unfold page_options_text. simpl readsafely. cbv iota.
    now rewrite trimmed_not_indented.
  - apply split_lines_join.
    + unfold indented, lines. intros H. apply map_eq_nil in H.
      now apply split_lines_nonempty in H.
    + unfold indented, lines. apply Forall_map.
      eapply Forall_impl; [|apply split_lines_dotted]. intros l H. exact H.
Qed.

Lemma page_options_text_blank (content : string) :
  page_options_text (Some content) = None <-> trim content = "".
Proof.
  unfold page_options_text. simpl readsafely. cbv iota.
  destruct (trim content); simpl falsy; cbv iota; split; try reflexivity;
    discriminate.
Qed.

(** X20.  [openPDF] gets to the conversion only when there are page options
    that [matter] reads as a truthy value.  Without a README it stops
    first.  With no page options file, or a blank one, [matter] is not
    called and [options.pdf_options] is still [undefined] when
    [displayHeaderFooter] is set on it; the same happens when the data
    [matter] returns is falsy.  When [matter] throws, its exception passes
    through. *)
Theorem openPDF_fails_without_page_options :
  forall (PageOptions : Type) (matter_data : string -> option PageOptions)
         (truthy_data : PageOptions -> bool)
         (set_displayHeaderFooter : PageOptions -> PageOptions)
         (pdf : string) (style : option string) (page_file : option string),
    let run := openPDF PageOptions matter_data truthy_data set_displayHeaderFooter in
    run false pdf style page_file = ReadmeNotFound
    /\ (page_options_text page_file = None
        <-> (page_file = None \/ exists content, page_file = Some content
                                                 /\ trim content = ""))
    /\ (page_options_text page_file = None -> run true pdf style page_file = TypeError)
    /\ (run true pdf style page_file = TypeError
        <-> (page_options_text page_file = None
             \/ exists text data,
                 page_options_text page_file = Some text
                 /\ matter_data text = Some data /\ truthy_data data = false))
    /\ (run true pdf style page_file = ParseError
        <-> exists text,
            page_options_text page_file = Some text /\ matter_data text = None)
    /\ (forall options,
           run true pdf style page_file = Converts pdf (stylesheet_of style) options
           <-> exists text data,
               page_options_text page_file = Some text
               /\ matter_data text = Some data /\ truthy_data data = true
               /\ options = set_displayHeaderFooter data).
Proof.
  intros PageOptions matter_data truthy_data set_dhf pdf style page_file run.
  split; [reflexivity|]. split.
  { destruct page_file as [content|].
    - rewrite page_options_text_blank. split.
      + intros H. right. now exists content.
      + intros [H|(content' & H & H')]; [discriminate|]. now injection H as <-.
    - split; [now left|reflexivity]. }
  subst run. unfold openPDF, readpageoptions. simpl negb. cbv iota.
  destruct (page_options_text page_file) as [text|].
  - destruct (matter_data text) as [data|] eqn:M.
    + destruct (truthy_data data) eqn:T.
      * split; [discriminate|]. split; [|split; [|intros options; split]].
        -- split; [discriminate|].
           intros [H|(text' & data' & H & M' & T')]; [discriminate|].
           injection H as <-. congruence.
        -- split; [discriminate|]. intros (text' & H & M').
           injection H as <-. congruence.
        -- intros H. injection H as <-. now exists text, data.
        -- intros (text' & data' & H & M' & T' & ->). injection H as <-.
           congruence.
      * split; [discriminate|]. split; [|split; [|intros options; split]].
        -- split; [|reflexivity]. intros _. right. now exists text, data.
        -- split; [discriminate|]. intros (text' & H & M').
           injection H as <-. congruence.
        -- discriminate.
        -- intros (text' & data' & H & M' & T' & _). injection H as <-.
           congruence.
    + split; [discriminate|]. split; [|split; [|intros options; split]].
      * split; [discriminate|].
        intros [H|(text' & data' & H & M' & _)]; [discriminate|].
        injection H as <-. congruence.
      * split; [|reflexivity]. intros _. now exists text.
      * discriminate.
      * intros (text' & data' & H & M' & _). injection H as <-. congruence.
  - split; [reflexivity|]. split; [|split; [|intros options; split]].
    + split; [now left|reflexivity].
    + split; [discriminate|]. intros (text' & H & _). discriminate.
    + discriminate.
    + intros (text' & data' & H & _). discriminate.
Qed.

(** ** [isSplLine] *)

Lemma isSplLine_shapes (l : string) :
  isSplLine l = true <-> (image_line l \/ tag_line l).
Proof.
  unfold isSplLine, re_match. simpl bol. cbv iota.
  rewrite orb_true_iff, !match_atoms_lang, image_line_lang, tag_line_lang.
  reflexivity.
Qed.

(** X21.  Blanks and tabs before a structural line, and blanks, tabs and
    newlines after it, leave it structural; and a structural line is never
    empty, so the tests [!l] and [isSplLine(l)] of the aligner never both
    hold. *)
Theorem isSplLine_ignores_surrounding_blanks :
  forall l w w' : string,
    isSplLine l = true ->
    all_chars (one_of [SP; TAB]) w = true ->
    all_chars (one_of [SP; TAB; LF]) w' = true ->
    isSplLine (w ++ l ++ w') = true /\ falsy l = false.
Proof.
  intros l w w' H Hw Hw'. apply isSplLine_shapes in H. split.
  - apply isSplLine_shapes.
    destruct H as [(w0 & alt & url & w0' & -> & H0 & Halt & Hurl & H0')
                  |(w0 & body & w0' & -> & H0 & Hbody & H0')]; [left|right].
    + exists (w ++ w0)%string, alt, url, (w0' ++ w')%string.
      rewrite !all_chars_app, Hw, H0, H0', Hw'. repeat split; auto.
      repeat first [rewrite append_assoc | progress simpl]. reflexivity.
    + exists (w ++ w0)%string, body, (w0' ++ w')%string.
      rewrite !all_chars_app, Hw, H0, H0', Hw'. repeat split; auto.
      repeat first [rewrite append_assoc | progress simpl]. reflexivity.
  - destruct H as [(w0 & alt & url & w0' & -> & _)|(w0 & body & w0' & -> & _)];
      destruct w0; reflexivity.
Qed.

Lemma isSplLine_ignores_surrounding_blanks_witness :
  isSplLine ("    " ++ "<img src=logo.png>" ++ "  ") = true
  /\ falsy "<img src=logo.png>" = false.
Proof.
  apply isSplLine_ignores_surrounding_blanks; reflexivity.
Defined.
